(** * MediaPlayer.tizen.js: the media playback event bridge

    A shallow embedding of [Libraries/MediaPlayer/MediaPlayer.tizen.js]:
    the subscription registry ([_subscriptions]), the command facade
    ([init], [play], [pause], [stop], [seekTo], [position], [destroy]),
    the result decoder inside the listener installed by
    [addEventListener], and the [_isPreparedEventReg] guard.

    The singleton object, the module-level [Map] and the two native
    collaborators are gathered in one record that every operation takes
    and returns.  Methods are called on the [MediaPlayer] object, so
    [this] is the singleton.  A handler of the application is opaque:
    calling it is recorded together with the payload it received, and
    its body is assumed not to call back into the bridge nor to change
    the payload. *)

From Stdlib Require Import ZArith QArith Ascii String List Lia.
From stdpp Require Import base option gmap strings list fin_maps.

Local Open Scope string_scope.
Local Open Scope list_scope.
Local Open Scope Z_scope.

(** ** JavaScript values *)

(** A JavaScript number.  The program never computes with numbers: it
    compares them ([<], [>]), tests them with [Number.isInteger] and
    for truthiness, and uses them as array indices.  The finite doubles
    are rationals, so [Fin] over-approximates them; [-0] behaves as [0]
    in each of these operations. *)
Inductive num :=
  | Fin (q : Q)
  | NaN
  | PosInf
  | NegInf.

(** The primitive values that travel in event payloads and in the
    fields of the player object. *)
Inductive val :=
  | VUndef
  | VNull
  | VBool (b : bool)
  | VNum (n : num)
  | VStr (s : string).

Definition int (z : Z) : num := Fin (inject_Z z).

Definition Qltb (a b : Q) : bool :=
  Qnum a * Zpos (Qden b) <? Qnum b * Zpos (Qden a).

(** [a < b] on numbers; every comparison with [NaN] is false. *)
Definition num_lt (a b : num) : bool :=
  match a, b with
  | NaN, _ | _, NaN => false
  | Fin x, Fin y => Qltb x y
  | NegInf, NegInf => false
  | NegInf, _ => true
  | _, NegInf => false
  | PosInf, _ => false
  | Fin _, PosInf => true
  end.

(** ToBoolean. *)
Definition truthy (v : val) : bool :=
  match v with
  | VUndef | VNull => false
  | VBool b => b
  | VNum (Fin q) => negb (Qnum q =? 0)
  | VNum NaN => false
  | VNum _ => true
  | VStr s => negb (String.eqb s "")
  end.

(** The integer a value denotes when [Number.isInteger] accepts it:
    a finite number with no fractional part. *)
Definition as_integer (v : val) : option Z :=
  match v with
  | VNum (Fin q) =>
      if Qnum q mod Zpos (Qden q) =? 0 then Some (Qnum q / Zpos (Qden q))
      else None
  | _ => None
  end.

Definition Number_isInteger (v : val) : bool :=
  match as_integer v with Some _ => true | None => false end.

(** An object whose properties hold primitive values (an event
    payload).  A property can be present and hold [undefined]. *)
Abbreviation payload := (gmap string val).

(** Property read [o.k]: [undefined] when the property is absent. *)
Definition js_get (o : payload) (k : string) : val :=
  default VUndef (o !! k).

(** ** Constants *)

Inductive EventName :=
  | idle | preparing | prepared | started | paused | updateplayinfo
  | seeking | seeked | playbackcomplete | playbackinterrupted
  | erroroccurred | exceptionhappened.

#[global] Instance EventName_eq_dec : EqDecision EventName.
Proof. solve_decision. Defined.

Definition EventName_index (e : EventName) : nat :=
  match e with
  | idle => 0 | preparing => 1 | prepared => 2 | started => 3
  | paused => 4 | updateplayinfo => 5 | seeking => 6 | seeked => 7
  | playbackcomplete => 8 | playbackinterrupted => 9
  | erroroccurred => 10 | exceptionhappened => 11
  end%nat.

Definition EventName_of_index (n : nat) : option EventName :=
  nth_error
    [idle; preparing; prepared; started; paused; updateplayinfo; seeking;
     seeked; playbackcomplete; playbackinterrupted; erroroccurred;
     exceptionhappened] n.

#[global] Program Instance EventName_countable : Countable EventName :=
  inj_countable EventName_index EventName_of_index _.
Next Obligation. by intros []. Qed.

Definition MEDIA_PLAYER_EVENTS (e : EventName) : string :=
  match e with
  | idle => "idle"
  | preparing => "preparing"
  | prepared => "prepared"
  | started => "started"
  | paused => "paused"
  | updateplayinfo => "updatePlayInfo"
  | seeking => "seeking"
  | seeked => "seeked"
  | playbackcomplete => "playbackComplete"
  | playbackinterrupted => "playbackInterrupted"
  | erroroccurred => "errorOccurred"
  | exceptionhappened => "exceptionHappened"
  end.

Definition EVENT_RESULTS : list string :=
  [ "PLAYER_OK";
    "PLAYER_INVALID_URI";
    "PLAYER_INVALID_SOURCE";
    "PLAYER_DUPLICATED_URI";
    "PLAYER_INSTANCE_DISPOSED";
    "PLAYER_INVALID_STATE";
    "PLAYER_INVALID_INSTANCE_OR_POLICY";
    "PLAYER_NONE_POLICY";
    "PLAYER_FEATURE_NOT_SUPPORTED";
    "PLAYER_VALUE_IN_USE";
    "PLAYER_WRONG_RANGE_RATE";
    "PLAYER_POSITION_OUT_OF_RANGE";
    "PLAYER_SUBTITLE_EMPTY_PATH";
    "PLAYER_SUBTITLE_FILE_PATH_NOT_EXIST";
    "PLAYER_SUBTITLE_NULL_PATH";
    "PLAYER_SUBTITLE_FORMAT_NOT_SUPPORTED";
    "PLAYER_PLAYBACK_INTERRUPTED";
    "PLAYER_ERROR_OCCURED";
    "PLAYER_TO_BE_EXTENDED" ].

(** [arr[i]] for an integer [i]: the element when [0 <= i < length],
    [undefined] otherwise (a negative or too large index names no
    property of the array). *)
Definition array_get (arr : list string) (i : Z) : val :=
  if i <? 0 then VUndef
  else match nth_error arr (Z.to_nat i) with
       | Some s => VStr s
       | None => VUndef
       end.

(** ** The result decoder

    The first statement of the listener that [addEventListener]
    installs:
    [Number.isInteger(eventData.ret_code) &&
       (eventData.EVENT_RESULT = EVENT_RESULTS[eventData.ret_code])]. *)
Definition decode (eventData : payload) : payload :=
  match as_integer (js_get eventData "ret_code") with
  | Some i => <["EVENT_RESULT" := array_get EVENT_RESULTS i]> eventData
  | None => eventData
  end.

(** ** Handlers and the native event emitter *)

(** A function object passed by the application: its identity and its
    source text.  The registry stores a handler under
    [listeners[handler]], a property of a plain object, so the key is
    [String(handler)], the function's source text: two function objects
    created from the same function expression have different
    identities and the same key. *)
Record fn := { fn_id : nat; fn_src : string }.

(** What a native listener ends up calling: a function of the
    application, or the arrow function of [init] that stores
    [event.duration]. *)
Inductive handler :=
  | App (f : fn)
  | DurationCapture.

(** The source text of the arrow function in [init]. *)
Definition DurationCapture_src : string :=
  "(event) => { this.duration = event.duration }".

(** [String(handler)], the property key used by the registry.  A
    function's source text is never the name of a member of
    [Object.prototype], so a read [listeners[handler]] finds own
    properties only. *)
Definition handler_key (h : handler) : string :=
  match h with
  | App f => fn_src f
  | DurationCapture => DurationCapture_src
  end.

(** Modelled from the spec: the event transport
    ([NativeEventEmitter], section 6: [addListener(eventId, cb) ->
    {remove(): void}]).  A subscription is the handle that
    [addListener] returns; the emitter keeps the active ones in
    registration order. *)
Record subscription := {
  sub_id : nat;
  sub_event : string;
  sub_handler : handler
}.

(** Modelled from the spec: the state of the event transport: the next
    fresh handle, the active subscriptions, and every [addListener]
    call made so far. *)
Record emitter := {
  next_id : nat;
  active : list subscription;
  added : list (string * handler)
}.

(** Modelled from the spec: [addListener(eventId, cb)] binds a new
    listener and returns its handle. *)
Definition addListener (eventId : string) (h : handler) (em : emitter)
  : nat * emitter :=
  (next_id em,
   {| next_id := S (next_id em);
      active := active em ++ [{| sub_id := next_id em;
                                 sub_event := eventId;
                                 sub_handler := h |}];
      added := added em ++ [(eventId, h)] |}).

(** Modelled from the spec: [handle.remove()] unbinds that listener;
    removing a handle that is no longer bound does nothing. *)
Definition remove_listener (l : nat) (em : emitter) : emitter :=
  {| next_id := next_id em;
     active := filter (λ sub, sub_id sub ≠ l) (active em);
     added := added em |}.

(** Calls forwarded to the native module [MediaPlayerModule]. *)
Inductive native_call :=
  | NInit (uri : val)
  | NPlay
  | NPause
  | NStop
  | NSeekTo (time : val)
  | NDeInit.

(** ** The player

    [uri], [duration] and [_isPreparedEventReg] are the fields of the
    [MediaPlayer] object that the methods use; [_subscriptions] is the
    module-level [Map] from an event name to an object from handler
    keys to listener handles.  The rest is the world the object talks
    to: the emitter, the calls received by the native module and its
    [position] property, the console, and the invocations of
    application handlers with the payload each one received. *)
Record player := {
  uri : val;
  duration : val;
  _isPreparedEventReg : bool;
  _subscriptions : gmap EventName (gmap string nat);
  events : emitter;
  native : list native_call;
  native_position : val;
  console : list string;
  invoked : list (fn * payload)
}.

Definition with_session (u d : val) (flag : bool) (s : player) : player :=
  {| uri := u; duration := d; _isPreparedEventReg := flag;
     _subscriptions := _subscriptions s; events := events s;
     native := native s; native_position := native_position s;
     console := console s; invoked := invoked s |}.

Definition with_subscriptions (m : gmap EventName (gmap string nat))
    (s : player) : player :=
  {| uri := uri s; duration := duration s;
     _isPreparedEventReg := _isPreparedEventReg s;
     _subscriptions := m; events := events s;
     native := native s; native_position := native_position s;
     console := console s; invoked := invoked s |}.

Definition with_events (em : emitter) (s : player) : player :=
  {| uri := uri s; duration := duration s;
     _isPreparedEventReg := _isPreparedEventReg s;
     _subscriptions := _subscriptions s; events := em;
     native := native s; native_position := native_position s;
     console := console s; invoked := invoked s |}.

(** [MediaPlayerModule.c(...)]: the native module receives one more
    call. *)
Definition forward (c : native_call) (s : player) : player :=
  {| uri := uri s; duration := duration s;
     _isPreparedEventReg := _isPreparedEventReg s;
     _subscriptions := _subscriptions s; events := events s;
     native := native s ++ [c]; native_position := native_position s;
     console := console s; invoked := invoked s |}.

(** [console.warn(msg)]. *)
Definition warn (msg : string) (s : player) : player :=
  {| uri := uri s; duration := duration s;
     _isPreparedEventReg := _isPreparedEventReg s;
     _subscriptions := _subscriptions s; events := events s;
     native := native s; native_position := native_position s;
     console := console s ++ [msg]; invoked := invoked s |}.

(** [handler(eventData)] for a function of the application. *)
Definition invoke (f : fn) (eventData : payload) (s : player) : player :=
  {| uri := uri s; duration := duration s;
     _isPreparedEventReg := _isPreparedEventReg s;
     _subscriptions := _subscriptions s; events := events s;
     native := native s; native_position := native_position s;
     console := console s; invoked := invoked s ++ [(f, eventData)] |}.

(** The module as loaded: [url: null] and [duration: null] are the
    declared fields; [uri] and [_isPreparedEventReg] are not declared,
    so they read [undefined]. *)
Definition loaded (pos : val) : player :=
  {| uri := VUndef; duration := VNull; _isPreparedEventReg := false;
     _subscriptions := ∅;
     events := {| next_id := 0; active := []; added := [] |};
     native := []; native_position := pos; console := [];
     invoked := [] |}.

(** ** The subscription registry *)

(** The listener bound by [addEventListener]: decode, then call the
    handler with the same (mutated) object.  For [DurationCapture] the
    handler is the arrow function of [init]:
    [this.duration = event.duration].  The listener returns the object
    because the emitter hands the same object to the next listener.
    The transport always delivers an object, so reading
    [eventData.ret_code] does not throw. *)
Definition listener (h : handler) (eventData : payload) (s : player)
  : payload * player :=
  let eventData := decode eventData in
  match h with
  | App f => (eventData, invoke f eventData s)
  | DurationCapture =>
      (eventData,
       with_session (uri s) (js_get eventData "duration")
         (_isPreparedEventReg s) s)
  end.

(** [_subscriptions.get(eventName) || {}]: a bucket is an object, hence
    truthy, so the empty object is used only when the event name has no
    bucket.  The returned [{remove}] object calls
    [removeEventListener(eventName, handler)] and needs no model of its
    own. *)
Definition addEventListener (eventName : EventName) (h : handler)
    (s : player) : player :=
  let '(l, em) := addListener (MEDIA_PLAYER_EVENTS eventName) h (events s) in
  let s := with_events em s in
  let listeners := default ∅ (_subscriptions s !! eventName) in
  let listeners := <[handler_key h := l]> listeners in
  with_subscriptions (<[eventName := listeners]> (_subscriptions s)) s.

(** A handle is an object, hence truthy: [listeners[handler] && ...]
    calls [remove()] exactly when the bucket has the key.
    [Object.getOwnPropertyNames(listeners).length] is the number of
    entries of the bucket, read before any entry is deleted. *)
Definition removeEventListener (eventName : EventName) (h : handler)
    (s : player) : player :=
  match _subscriptions s !! eventName with
  | None => s
  | Some listeners =>
      let s :=
        match listeners !! handler_key h with
        | Some l => with_events (remove_listener l (events s)) s
        | None => s
        end in
      if (size listeners =? 1)%nat
      then with_subscriptions (delete eventName (_subscriptions s)) s
      else with_subscriptions
             (<[eventName := delete (handler_key h) listeners]>
                (_subscriptions s)) s
  end.

(** The two loops of [_unregisterEvents] call [remove()] on every
    handle of every bucket; the order of the calls does not change the
    set of listeners left bound. *)
Definition _unregisterEvents (s : player) : player :=
  let em :=
    map_fold (λ _ listeners em,
                map_fold (λ _ l em, remove_listener l em) em listeners)
             (events s) (_subscriptions s) in
  with_subscriptions ∅ (with_events em s).

(** Modelled from the spec: the transport delivers a named event to
    the listeners bound to that event identifier, in registration
    order, all with the same payload object. *)
Fixpoint dispatch (subs : list subscription) (eventData : payload)
    (s : player) : player :=
  match subs with
  | [] => s
  | sub :: subs =>
      let '(eventData, s) := listener (sub_handler sub) eventData s in
      dispatch subs eventData s
  end.

(** Modelled from the spec: a native event [eventId] with payload
    [eventData]. *)
Definition emit (eventId : string) (eventData : payload) (s : player)
  : player :=
  dispatch (filter (λ sub, sub_event sub = eventId) (active (events s)))
           eventData s.

(** ** The command facade *)

Definition play (s : player) : player :=
  if truthy (uri s) then forward NPlay s else s.

Definition pause (s : player) : player :=
  if truthy (uri s) then forward NPause s else s.

Definition stop (s : player) : player :=
  if truthy (uri s) then forward NStop s else s.

(** [this.uri && MediaPlayerModule.position]: the value of [this.uri]
    itself when it is falsy. *)
Definition position (s : player) : val :=
  if truthy (uri s) then native_position s else uri s.

Definition destroy (s : player) : player :=
  forward NDeInit (forward NStop (_unregisterEvents s)).

(** ** Derived notions used in the statements *)

(** [a <= b] on numbers. *)
Definition num_le (a b : num) : bool :=
  match a, b with
  | NaN, _ | _, NaN => false
  | Fin x, Fin y => Qnum x * Zpos (Qden y) <=? Qnum y * Zpos (Qden x)
  | NegInf, _ => true
  | _, PosInf => true
  | _, _ => false
  end.

(** The handler invocations that a native event causes: what [emit]
    appends to the record of invocations. *)
Definition invocations (eventId : string) (eventData : payload)
    (s : player) : list (fn * payload) :=
  drop (length (invoked s)) (invoked (emit eventId eventData s)).

(** The invocations made by a list of listeners that receive the same
    payload object one after the other. *)
Fixpoint deliveries (subs : list subscription) (eventData : payload)
  : list (fn * payload) :=
  match subs with
  | [] => []
  | sub :: subs =>
      match sub_handler sub with
      | App f => (f, decode eventData) :: deliveries subs (decode eventData)
      | DurationCapture => deliveries subs (decode eventData)
      end
  end.

#[global] Instance fn_eq_dec : EqDecision fn.
Proof. solve_decision. Defined.

#[global] Instance handler_eq_dec : EqDecision handler.
Proof. solve_decision. Defined.

(** How many times the emitter was asked to bind the internal
    duration-capturing listener. *)
Definition prepared_registrations (s : player) : nat :=
  length (filter (λ x, x.2 = DurationCapture) (added (events s))).

(** [h] has an entry of its own under [eventName]: the bucket holds,
    under the key of [h], the handle of a bound listener that calls
    [h]. *)
Definition registered (eventName : EventName) (h : handler) (s : player)
  : Prop :=
  ∃ listeners l,
    _subscriptions s !! eventName = Some listeners ∧
    listeners !! handler_key h = Some l ∧
    {| sub_id := l; sub_event := MEDIA_PLAYER_EVENTS eventName;
       sub_handler := h |} ∈ active (events s).

(** Handles are handed out once: the bound listeners have pairwise
    different handles, all below the next fresh one. *)
Definition fresh_handles (em : emitter) : Prop :=
  NoDup (sub_id <$> active em) ∧
  ∀ sub, sub ∈ active em → (sub_id sub < next_id em)%nat.

(** What is left of the emitter once every handle of [handles] had
    [remove()] called on it. *)
Definition unbound (handles : gmap string nat) (em0 em : emitter) : Prop :=
  next_id em = next_id em0 ∧ added em = added em0 ∧
  ∀ sub, sub ∈ active em ↔
         sub ∈ active em0 ∧ ∀ k l, handles !! k = Some l → sub_id sub ≠ l.

(** The same for a whole registry. *)
Definition unbound_all (reg : gmap EventName (gmap string nat))
    (em0 em : emitter) : Prop :=
  next_id em = next_id em0 ∧ added em = added em0 ∧
  ∀ sub, sub ∈ active em ↔
         sub ∈ active em0 ∧
         ∀ e listeners k l, reg !! e = Some listeners →
                            listeners !! k = Some l → sub_id sub ≠ l.

(** ** Sample data for the closed examples *)

(** The handler of the example in the module's documentation, a second
    function object created from the same function expression, and a
    handler written differently. *)
Definition onStarted : fn :=
  {| fn_id := 1; fn_src := "(event) => { console.log('audio played.') }" |}.

Definition onStarted_again : fn :=
  {| fn_id := 2; fn_src := "(event) => { console.log('audio played.') }" |}.

Definition onPaused : fn :=
  {| fn_id := 3; fn_src := "(event) => { console.log('audio paused.') }" |}.

Definition sample_url : string := "http://www.samsung.com/a.mp3".

(** A host with an empty asset registry, and a stand-in for the
    runtime's string conversion in examples where no string is read as
    a number. *)
Definition no_assets : Z → option val := λ _, None.

Definition unparsed : string → num := λ _, NaN.

(** The player after [init(sample_url)] and a "prepared" event whose
    payload is [{duration: d}]. *)
Definition prepared_with (d : val) : player :=
  {| uri := VStr sample_url; duration := d; _isPreparedEventReg := true;
     _subscriptions := {[ prepared := {[ DurationCapture_src := 0%nat ]} ]};
     events :=
       {| next_id := 1;
          active := [{| sub_id := 0; sub_event := "prepared";
                        sub_handler := DurationCapture |}];
          added := [("prepared", DurationCapture)] |};
     native := [NInit (VStr sample_url)]; native_position := VUndef;
     console := []; invoked := [] |}.

(** ** Further notions: delivery and registry bookkeeping *)

(** The function of the application that a bound listener calls, if
    any. *)
Definition app_of (sub : subscription) : option fn :=
  match sub_handler sub with
  | App f => Some f
  | DurationCapture => None
  end.

(** The application handlers bound to an event identifier, in
    registration order, one per bound listener. *)
Definition bound_handlers (eventId : string) (s : player) : list fn :=
  omap app_of (filter (λ sub, sub_event sub = eventId) (active (events s))).

(** The internal duration-capturing listener is bound to the event. *)
Definition captures (eventId : string) (s : player) : bool :=
  bool_decide
    (Exists (λ sub, sub_event sub = eventId ∧ sub_handler sub = DurationCapture)
            (active (events s))).

(** The registry holds the handle [l]. *)
Definition held (s : player) (l : nat) : Prop :=
  ∃ e listeners k,
    _subscriptions s !! e = Some listeners ∧ listeners !! k = Some l.

(** Every handle held by the registry belongs to a listener that is
    bound, to the event of its bucket and for a handler with the key of
    its entry. *)
Definition entries_bound (s : player) : Prop :=
  ∀ e listeners k l,
    _subscriptions s !! e = Some listeners → listeners !! k = Some l →
    ∃ h, handler_key h = k ∧
         {| sub_id := l; sub_event := MEDIA_PLAYER_EVENTS e;
            sub_handler := h |} ∈ active (events s).

(** No event name maps to an empty bucket. *)
Definition no_empty_bucket (s : player) : Prop :=
  ∀ e listeners, _subscriptions s !! e = Some listeners → listeners ≠ ∅.

(** The three facts that every operation keeps. *)
Definition consistent (s : player) : Prop :=
  no_empty_bucket s ∧ fresh_handles (events s) ∧ entries_bound s.

(** * Devtools: [src/prebuild.js] and [src/bundle.js]

    The packager script.  A character of a [string] stands for one code
    unit of a JavaScript string. *)

(** [s.indexOf(pat)], searching from the position [i] of the whole
    string at which [s] starts: the position of the first occurrence,
    or -1. *)
Fixpoint indexOf_from (pat s : string) (i : Z) : Z :=
  if String.prefix pat s then i
  else match s with
       | EmptyString => -1
       | String _ s' => indexOf_from pat s' (i + 1)
       end.

Definition indexOf (s pat : string) : Z := indexOf_from pat s 0.

(** [s.slice(start, end)]: a negative bound counts from the end of the
    string, and both bounds are clamped to the string. *)
Definition slice (s : string) (start end_ : Z) : string :=
  let len := Z.of_nat (String.length s) in
  let from := if start <? 0 then Z.max (len + start) 0 else Z.min start len in
  let to := if end_ <? 0 then Z.max (len + end_) 0 else Z.min end_ len in
  substring (Z.to_nat from) (Z.to_nat (Z.max (to - from) 0)) s.

(** The template literal [`/node_modules/${name}/build`]. *)
Definition build_marker (name : string) : string :=
  "/node_modules/" +:+ name +:+ "/build".

(** [getPath()], with [__dirname] and the [name] field of
    [package.json] as arguments. *)
Definition getPath (__dirname name : string) : string :=
  let dir := __dirname in
  let endIndex := indexOf dir (build_marker name) in
  slice dir 0 endIndex.

(** [toLowerCase] on one character: the letters A to Z are the only
    characters whose lower-case form is an ASCII letter, so comparing
    the result with an ASCII word needs no more. *)
Definition toLowerCase_ascii (c : ascii) : ascii :=
  let n := nat_of_ascii c in
  if ((65 <=? n) && (n <=? 90))%nat then ascii_of_nat (n + 32) else c.

Fixpoint toLowerCase (s : string) : string :=
  match s with
  | EmptyString => EmptyString
  | String c s' => String (toLowerCase_ascii c) (toLowerCase s')
  end.

(** [checkCommand(cmd)]; [None] is the TypeError of calling
    [cmd.toLowerCase] on a truthy value that is not a string. *)
Definition checkCommand (cmd : val) : option bool :=
  if negb (truthy cmd) then Some false
  else match cmd with
       | VStr s => Some (String.eqb (toLowerCase s) "dev")
       | _ => None
       end.

(** [data.replace(/pat/g, key)] for a pattern that is a literal,
    non-empty word and a replacement without [$]: the occurrences are
    replaced from left to right, the search resuming after each one.
    [skip] counts the characters of the current occurrence that are
    still to be dropped. *)
Fixpoint replace_from (pat key : string) (skip : nat) (s : string) : string :=
  match s with
  | EmptyString => EmptyString
  | String c s' =>
      match skip with
      | S n => replace_from pat key n s'
      | O =>
          if String.prefix pat s
          then key +:+ replace_from pat key (String.length pat - 1) s'
          else String c (replace_from pat key 0 s')
      end
  end.

(** The same for the empty pattern, which matches before every
    character and at the end. *)
Fixpoint replace_empty (key s : string) : string :=
  match s with
  | EmptyString => key
  | String c s' => key +:+ String c (replace_empty key s')
  end.

Definition replace_all (pat key s : string) : string :=
  match pat with
  | EmptyString => replace_empty key s
  | String _ _ => replace_from pat key 0 s
  end.

(** [replaceTizen(file, reg, key)] on a file system that maps a path to
    the text of the file; [None] when [readFileSync] throws because
    there is no such file. *)
Definition replaceTizen (file pat key : string) (fs : gmap string string)
  : option (gmap string string) :=
  data ← fs !! file;
  let result := replace_all pat key data in
  Some (<[file := result]> fs).

Definition RN : string := "/node_modules/react-native/packager/".

Definition defaults_js (appPath : string) : string :=
  appPath +:+ RN +:+ "defaults.js".

Definition getPlatformExtension_js (appPath : string) : string :=
  appPath +:+ RN +:+ "src/node-haste/lib/getPlatformExtension.js".

(** The command line [arg1+arg2+arg3+arg4], [dev] being the result of
    [checkCommand]. *)
Definition bundle_command (appPath : string) (dev : bool) : string :=
  let packageDir := appPath +:+ "/Tizen/shared/res" in
  let SPACE := " " in
  let arg1 := "node" +:+ SPACE +:+ appPath
              +:+ "/node_modules/react-native/local-cli/cli.js"
              +:+ SPACE +:+ "bundle --entry-file index.tizen.js" in
  let arg2 := " --bundle-output" +:+ SPACE +:+ packageDir
              +:+ "/index.tizen.bundle" in
  let arg3 := " --platform tizen --assets-dest" +:+ SPACE +:+ packageDir
              +:+ "/assets/" in
  let arg4 := " --dev " +:+ (if dev then "true" else "false") in
  arg1 +:+ arg2 +:+ arg3 +:+ arg4.

(** [packager()]: the file system it leaves and the command it hands to
    [execSync], [None] when it threw before.  [command] is
    [argv._[0]].  The [console.log] calls are left out, and with them
    [app.name], which is only logged. *)
Definition packager (__dirname name : string) (command : val)
    (fs : gmap string string) : gmap string string * option string :=
  let appPath := getPath __dirname name in
  match replaceTizen (defaults_js appPath) "windows" "tizen" fs with
  | None => (fs, None)
  | Some fs1 =>
      match replaceTizen (getPlatformExtension_js appPath) "web" "tizen" fs1
      with
      | None => (fs1, None)
      | Some fs2 =>
          match replaceTizen (defaults_js appPath)
                  "react-native-tizen" "react-native-sante" fs2 with
          | None => (fs2, None)
          | Some fs3 =>
              match checkCommand command with
              | None => (fs3, None)
              | Some dev => (fs3, Some (bundle_command appPath dev))
              end
          end
      end
  end.

(** [pat] occurs in [s]. *)
Definition occurs (pat s : string) : Prop :=
  ∃ a b, s = a +:+ pat +:+ b.


Section Host.

(** [resolveAssetSource(id).uri] for a numeric asset reference:
    [None] when the asset registry has no such asset (the call
    returns [null] and reading [.uri] throws a TypeError). *)
Variable resolveAssetSource : Z → option val.

(** ToNumber on strings, as the runtime defines it. *)
Variable StringToNumber : string → num.

Definition ToNumber (v : val) : num :=
  match v with
  | VUndef => NaN
  | VNull => int 0
  | VBool b => if b then int 1 else int 0
  | VNum n => n
  | VStr s => StringToNumber s
  end.

(** [Number.isInteger(source) ? resolveAssetSource(source).uri :
    source]. *)
Definition source_uri (source : val) : option val :=
  match as_integer source with
  | Some id => resolveAssetSource id
  | None => Some source
  end.

(** [None]: the first statement threw, before any assignment. *)
Definition init (source : val) (s : player) : option player :=
  u ← source_uri source;
  let s := with_session u VNull (_isPreparedEventReg s) s in
  if negb (truthy u) then Some (warn "uri should not be an empty" s)
  else
    let s := forward (NInit u) s in
    let s := if _isPreparedEventReg s then s
             else addEventListener prepared DurationCapture s in
    Some (with_session (uri s) (duration s) true s).

(** [time] is a number, so [time < this.duration] compares
    [time] with ToNumber([this.duration]). *)
Definition seekTo (time : num) (s : player) : player :=
  let time := if num_lt (int 0) time then time else int 0 in
  let time :=
    if truthy (duration s)
    then (if num_lt time (ToNumber (duration s)) then VNum time
          else duration s)
    else VNum time in
  if truthy (uri s) then forward (NSeekTo time) s else s.

(** ** Sessions: sequences of calls and native events *)

Inductive call :=
  | Init (source : val)
  | Play
  | Pause
  | Stop
  | SeekTo (time : num)
  | Position
  | Destroy
  | AddEventListener (eventName : EventName) (f : fn)
  | RemoveEventListener (eventName : EventName) (f : fn)
  | NativeEvent (eventId : string) (eventData : payload).

(** A call that throws leaves the player as it was. *)
Definition step (s : player) (c : call) : player :=
  match c with
  | Init source => default s (init source s)
  | Play => play s
  | Pause => pause s
  | Stop => stop s
  | SeekTo time => seekTo time s
  | Position => s
  | Destroy => destroy s
  | AddEventListener e f => addEventListener e (App f) s
  | RemoveEventListener e f => removeEventListener e (App f) s
  | NativeEvent eventId eventData => emit eventId eventData s
  end.

Definition run (cs : list call) (s : player) : player :=
  fold_left step cs s.

(** ** The decoder *)

Lemma as_integer_int (z : Z) : as_integer (VNum (int z)) = Some z.
Proof.
  unfold as_integer, int, inject_Z; simpl.
  rewrite Z.mod_1_r, Z.div_1_r. reflexivity.
Qed.

Lemma Number_isInteger_as_integer (v : val) :
  Number_isInteger v = false ↔ as_integer v = None.
Proof. unfold Number_isInteger. destruct (as_integer v); split; congruence. Qed.

Lemma decode_integer (p : payload) (i : Z) :
  as_integer (js_get p "ret_code") = Some i →
  decode p = <["EVENT_RESULT" := array_get EVENT_RESULTS i]> p.
Proof. intros Hi. unfold decode. rewrite Hi. reflexivity. Qed.

Lemma decode_not_integer (p : payload) :
  as_integer (js_get p "ret_code") = None → decode p = p.
Proof. intros Hi. unfold decode. rewrite Hi. reflexivity. Qed.

Lemma array_get_out_of_range (i : Z) :
  i < 0 ∨ 18 < i → array_get EVENT_RESULTS i = VUndef.
Proof.
  intros Hi. unfold array_get.
  destruct (Z.ltb_spec i 0) as [|Hge]; [reflexivity|].
  destruct Hi as [|Hi]; [lia|].
  assert (Hlen : (length EVENT_RESULTS ≤ Z.to_nat i)%nat)
    by (simpl; lia).
  apply nth_error_None in Hlen. rewrite Hlen. reflexivity.
Qed.

Lemma array_get_in_range (i : Z) :
  0 ≤ i ≤ 18 → ∃ name, array_get EVENT_RESULTS i = VStr name.
Proof.
  intros Hi. unfold array_get.
  destruct (Z.ltb_spec i 0); [lia|].
  destruct (nth_error EVENT_RESULTS (Z.to_nat i)) as [name|] eqn:Hn;
    [eauto|].
  apply nth_error_None in Hn. simpl in Hn. lia.
Qed.

Lemma listener_app (f : fn) (p : payload) (s : player) :
  listener (App f) p s = (decode p, invoke f (decode p) s).
Proof. reflexivity. Qed.

(** C1 (as amended): on every delivery the handler is called once, with
    the decoded payload; [ret_code] 0 decodes to PLAYER_OK, 17 to
    PLAYER_ERROR_OCCURED and 18 to PLAYER_TO_BE_EXTENDED (the table has
    nineteen entries); a payload whose [ret_code] is absent or not an
    integer reaches the handler unchanged. *)
Theorem listener_decodes_ret_code (f : fn) (p : payload) (s : player) :
  let rc := js_get p "ret_code" in
  let p' := (listener (App f) p s).1 in
  invoked (listener (App f) p s).2 = invoked s ++ [(f, p')] ∧
  (as_integer rc = Some 0 →
     p' = <["EVENT_RESULT" := VStr "PLAYER_OK"]> p) ∧
  (as_integer rc = Some 17 →
     p' = <["EVENT_RESULT" := VStr "PLAYER_ERROR_OCCURED"]> p) ∧
  (as_integer rc = Some 18 →
     p' = <["EVENT_RESULT" := VStr "PLAYER_TO_BE_EXTENDED"]> p) ∧
  (p !! "ret_code" = None → p' = p) ∧
  (Number_isInteger rc = false → p' = p).
Proof.
  intros rc p'. subst rc p'. rewrite listener_app. simpl.
  split; [reflexivity|].
  repeat split; intros H.
  - rewrite (decode_integer _ _ H). reflexivity.
  - rewrite (decode_integer _ _ H). reflexivity.
  - rewrite (decode_integer _ _ H). reflexivity.
  - apply decode_not_integer. unfold js_get. rewrite H. reflexivity.
  - apply decode_not_integer, Number_isInteger_as_integer, H.
Qed.

(** C5 (as amended): for an integer [ret_code] outside [0, 18] the
    table lookup finds no name and the assignment still runs: the
    payload handed to the handler is the received one with
    [EVENT_RESULT] assigned [undefined]. *)
Theorem listener_out_of_range (f : fn) (p : payload) (s : player) (i : Z) :
  as_integer (js_get p "ret_code") = Some i →
  i < 0 ∨ 18 < i →
  let p' := (listener (App f) p s).1 in
  invoked (listener (App f) p s).2 = invoked s ++ [(f, p')] ∧
  p' = <["EVENT_RESULT" := VUndef]> p ∧
  js_get p' "EVENT_RESULT" = VUndef.
Proof.
  intros Hi Hr p'. subst p'. rewrite listener_app. simpl.
  rewrite (decode_integer _ _ Hi), (array_get_out_of_range _ Hr).
  split; [reflexivity|]. split; [reflexivity|].
  unfold js_get. rewrite lookup_insert_eq. reflexivity.
Qed.

(** ** Delivery of native events *)

Lemma invoked_dispatch (subs : list subscription) (p : payload) (s : player) :
  invoked (dispatch subs p s) = invoked s ++ deliveries subs p.
Proof.
  revert p s. induction subs as [|sub subs IH]; intros p s; simpl.
  - by rewrite app_nil_r.
  - unfold listener. destruct (sub_handler sub) as [f|]; rewrite IH; simpl.
    + by rewrite <- app_assoc.
    + reflexivity.
Qed.

Lemma invocations_emit (eventId : string) (p : payload) (s : player) :
  invocations eventId p s =
  deliveries (filter (λ sub, sub_event sub = eventId) (active (events s))) p.
Proof.
  unfold invocations, emit. rewrite invoked_dispatch.
  apply drop_app_length.
Qed.

Lemma deliveries_from (subs : list subscription) (p : payload) x :
  x ∈ deliveries subs p →
  ∃ sub, sub ∈ subs ∧ sub_handler sub = App x.1.
Proof.
  revert p. induction subs as [|sub subs IH]; intros p; simpl.
  - intros Hx. by apply elem_of_nil in Hx.
  - destruct (sub_handler sub) as [f|] eqn:Hh.
    + intros [->|Hx]%elem_of_cons.
      * exists sub. split; [left|exact Hh].
      * destruct (IH _ Hx) as (sub' & Hin & Hs).
        exists sub'. split; [by right|exact Hs].
    + intros Hx. destruct (IH _ Hx) as (sub' & Hin & Hs).
      exists sub'. split; [by right|exact Hs].
Qed.

Lemma deliveries_to (subs : list subscription) (p : payload) sub (f : fn) :
  sub ∈ subs → sub_handler sub = App f →
  ∃ p', (f, p') ∈ deliveries subs p.
Proof.
  revert p. induction subs as [|sub0 subs IH]; intros p Hin Hh.
  - by apply elem_of_nil in Hin.
  - simpl. apply elem_of_cons in Hin as [<-|Hin].
    + rewrite Hh. eexists. left.
    + destruct (IH (decode p) Hin Hh) as [p' Hp'].
      exists p'. destruct (sub_handler sub0); [by right|done].
Qed.

(** ** The registry operations, field by field *)

Lemma subscriptions_addEventListener (e : EventName) (h : handler)
    (s : player) :
  _subscriptions (addEventListener e h s) =
  <[e := <[handler_key h := next_id (events s)]>
           (default ∅ (_subscriptions s !! e))]> (_subscriptions s).
Proof. reflexivity. Qed.

Lemma active_addEventListener (e : EventName) (h : handler) (s : player) :
  active (events (addEventListener e h s)) =
  active (events s) ++
    [{| sub_id := next_id (events s);
        sub_event := MEDIA_PLAYER_EVENTS e; sub_handler := h |}].
Proof. reflexivity. Qed.

Lemma added_addEventListener (e : EventName) (h : handler) (s : player) :
  added (events (addEventListener e h s)) =
  added (events s) ++ [(MEDIA_PLAYER_EVENTS e, h)].
Proof. reflexivity. Qed.

Lemma removeEventListener_no_bucket (e : EventName) (h : handler)
    (s : player) :
  _subscriptions s !! e = None → removeEventListener e h s = s.
Proof. intros He. unfold removeEventListener. by rewrite He. Qed.

Lemma subscriptions_removeEventListener (e : EventName) (h : handler)
    (s : player) (listeners : gmap string nat) :
  _subscriptions s !! e = Some listeners →
  _subscriptions (removeEventListener e h s) =
  if (size listeners =? 1)%nat then delete e (_subscriptions s)
  else <[e := delete (handler_key h) listeners]> (_subscriptions s).
Proof.
  intros He. unfold removeEventListener. rewrite He.
  destruct (listeners !! handler_key h), (size listeners =? 1)%nat;
    reflexivity.
Qed.

Lemma active_removeEventListener (e : EventName) (h : handler)
    (s : player) (listeners : gmap string nat) :
  _subscriptions s !! e = Some listeners →
  active (events (removeEventListener e h s)) =
  match listeners !! handler_key h with
  | Some l => filter (λ sub, sub_id sub ≠ l) (active (events s))
  | None => active (events s)
  end.
Proof.
  intros He. unfold removeEventListener. rewrite He.
  destruct (listeners !! handler_key h), (size listeners =? 1)%nat;
    reflexivity.
Qed.

Lemma with_subscriptions_id (s : player) :
  with_subscriptions (_subscriptions s) s = s.
Proof. by destruct s. Qed.

(** Removing a handler that has no entry from a bucket that does not
    hold exactly one entry changes nothing. *)
Lemma removeEventListener_absent_large_bucket (e : EventName) (h : handler)
    (s : player) (listeners : gmap string nat) :
  _subscriptions s !! e = Some listeners →
  listeners !! handler_key h = None →
  size listeners ≠ 1%nat →
  removeEventListener e h s = s.
Proof.
  intros He Hh Hsz. unfold removeEventListener. rewrite He, Hh.
  destruct (Nat.eqb_spec (size listeners) 1) as [|_]; [done|].
  rewrite delete_id by done. rewrite insert_id by done.
  apply with_subscriptions_id.
Qed.

(** The same call on a bucket of exactly one entry drops the bucket,
    and with it the entry of the handler that was registered; the
    listener of that handler stays bound. *)
Lemma removeEventListener_absent_single_bucket (e : EventName) (h : handler)
    (s : player) (listeners : gmap string nat) :
  _subscriptions s !! e = Some listeners →
  listeners !! handler_key h = None →
  size listeners = 1%nat →
  _subscriptions (removeEventListener e h s) = delete e (_subscriptions s) ∧
  events (removeEventListener e h s) = events s.
Proof.
  intros He Hh Hsz. unfold removeEventListener. rewrite He, Hh, Hsz.
  by simpl.
Qed.

(** ** Adding, then removing *)

Lemma add_then_remove_no_entry (e : EventName) (h : handler) (s : player)
    (listeners : gmap string nat) :
  _subscriptions (removeEventListener e h (addEventListener e h s)) !! e
    = Some listeners →
  listeners !! handler_key h = None.
Proof.
  erewrite subscriptions_removeEventListener
    by (rewrite subscriptions_addEventListener; apply lookup_insert_eq).
  destruct (_ =? _)%nat.
  - rewrite lookup_delete_eq. discriminate.
  - rewrite lookup_insert_eq. intros [= <-]. apply lookup_delete_eq.
Qed.

Lemma add_then_remove_active (e : EventName) (h : handler) (s : player) :
  active (events (removeEventListener e h (addEventListener e h s))) =
  filter (λ sub, sub_id sub ≠ next_id (events s)) (active (events s)).
Proof.
  erewrite active_removeEventListener
    by (rewrite subscriptions_addEventListener; apply lookup_insert_eq).
  rewrite lookup_insert_eq, active_addEventListener, filter_app.
  rewrite filter_cons_False by (simpl; intros Hne; by apply Hne).
  rewrite filter_nil. apply app_nil_r.
Qed.

(** C3 (as amended): in a state where no listener bound to the event of
    [e] calls [f], adding [f] and then removing it leaves no entry for
    [(e, f)], and a native event for [e] does not call [f]. *)
Theorem add_then_remove_silences (e : EventName) (f : fn) (s : player) :
  (∀ sub, sub ∈ active (events s) →
          sub_event sub = MEDIA_PLAYER_EVENTS e →
          sub_handler sub ≠ App f) →
  let s' := removeEventListener e (App f) (addEventListener e (App f) s) in
  (∀ listeners, _subscriptions s' !! e = Some listeners →
                listeners !! fn_src f = None) ∧
  (∀ p x, x ∈ invocations (MEDIA_PLAYER_EVENTS e) p s' → x.1 ≠ f).
Proof.
  intros Hquiet s'. subst s'. split.
  - intros listeners. apply (add_then_remove_no_entry e (App f)).
  - intros p x. rewrite invocations_emit, add_then_remove_active.
    intros (sub & Hsub & Hh)%deliveries_from Hx.
    apply list_elem_of_filter in Hsub as [Hev Hsub].
    apply list_elem_of_filter in Hsub as [_ Hsub].
    apply (Hquiet sub Hsub Hev). by rewrite Hh, Hx.
Qed.

(** ** Removing one of two handlers *)

Lemma fresh_handles_inj (em : emitter) (sub1 sub2 : subscription) :
  fresh_handles em → sub1 ∈ active em → sub2 ∈ active em →
  sub_id sub1 = sub_id sub2 → sub1 = sub2.
Proof.
  intros [Hnd _]. induction (active em) as [|sub subs IH]; simpl in *.
  - intros Hin. by apply elem_of_nil in Hin.
  - apply NoDup_cons in Hnd as [Hnotin Hnd].
    intros [->|H1]%elem_of_cons [->|H2]%elem_of_cons Hid; auto.
    + exfalso. apply Hnotin. rewrite Hid. by apply list_elem_of_fmap_2.
    + exfalso. apply Hnotin. rewrite <- Hid. by apply list_elem_of_fmap_2.
Qed.

Lemma two_keys_size (listeners : gmap string nat) (k1 k2 : string) :
  k1 ≠ k2 → is_Some (listeners !! k1) → is_Some (listeners !! k2) →
  size listeners ≠ 1%nat.
Proof.
  intros Hne H1 H2 Hsz.
  assert (Hd : size (delete k1 listeners) = 0%nat)
    by (rewrite map_size_delete_Some by done; by rewrite Hsz).
  apply (map_size_ne_0_lookup_2 (delete k1 listeners) k2); [|done].
  by rewrite lookup_delete_ne.
Qed.

(** Two handlers whose source texts differ, each with an entry of its
    own: removing the first leaves the entry and the listener of the
    second, and a native event still reaches the second. *)
Lemma removeEventListener_keeps_other (e : EventName) (f1 f2 : fn)
    (s : player) :
  fresh_handles (events s) →
  registered e (App f1) s → registered e (App f2) s →
  fn_src f1 ≠ fn_src f2 →
  let s' := removeEventListener e (App f1) s in
  registered e (App f2) s' ∧
  ¬ registered e (App f1) s' ∧
  ∀ p, ∃ p', (f2, p') ∈ invocations (MEDIA_PLAYER_EVENTS e) p s'.
Proof.
  intros Hfresh (ls & l1 & He & Hk1 & Hs1) (ls' & l2 & He' & Hk2 & Hs2) Hsrc.
  rewrite He in He'. injection He' as <-. simpl in Hk1, Hk2.
  assert (Hl : l2 ≠ l1).
  { intros ->. pose proof (fresh_handles_inj _ _ _ Hfresh Hs1 Hs2 eq_refl).
    congruence. }
  assert (Hsz : (size ls =? 1)%nat = false).
  { apply Nat.eqb_neq. by apply (two_keys_size ls (fn_src f1) (fn_src f2)). }
  assert (Hact : {| sub_id := l2; sub_event := MEDIA_PLAYER_EVENTS e;
                    sub_handler := App f2 |}
                 ∈ active (events (removeEventListener e (App f1) s))).
  { rewrite (active_removeEventListener _ _ _ _ He). simpl. rewrite Hk1.
    apply list_elem_of_filter. by split. }
  assert (Hreg : _subscriptions (removeEventListener e (App f1) s) !! e
                 = Some (delete (fn_src f1) ls)).
  { rewrite (subscriptions_removeEventListener _ _ _ _ He), Hsz.
    apply lookup_insert_eq. }
  simpl. split; [|split].
  - exists (delete (fn_src f1) ls), l2. split; [exact Hreg|].
    split; [|exact Hact]. simpl. by rewrite lookup_delete_ne.
  - intros (ls'' & l & He'' & Hk & _). rewrite Hreg in He''.
    injection He'' as <-. simpl in Hk. by rewrite lookup_delete_eq in Hk.
  - intros p. rewrite invocations_emit.
    apply (deliveries_to _ p
             {| sub_id := l2; sub_event := MEDIA_PLAYER_EVENTS e;
                sub_handler := App f2 |}); [|reflexivity].
    apply list_elem_of_filter. split; [reflexivity|exact Hact].
Qed.

(** ** Teardown *)

Lemma remove_bucket_unbound (em0 : emitter) (listeners : gmap string nat) :
  unbound listeners em0
    (map_fold (λ _ l em, remove_listener l em) em0 listeners).
Proof.
  revert listeners.
  apply (map_fold_weak_ind (λ em m, unbound m em0 em)).
  - split; [done|]. split; [done|]. intros sub. split; [|tauto].
    intros Hin. split; [done|]. intros k l Hk.
    by rewrite lookup_empty in Hk.
  - intros k l m em Hfree (Hn & Ha & Hact). split; [done|]. split; [done|].
    intros sub. simpl. rewrite list_elem_of_filter, Hact. split.
    + intros (Hl & Hin & Hm). split; [done|]. intros k' l'.
      destruct (decide (k = k')) as [<-|Hne].
      * rewrite lookup_insert_eq. by intros [= <-].
      * rewrite lookup_insert_ne by done. apply Hm.
    + intros (Hin & Hm). split; [|split; [done|]].
      * apply (Hm k). apply lookup_insert_eq.
      * intros k' l' Hk'. apply (Hm k').
        rewrite lookup_insert_ne; [done|]. intros ->. congruence.
Qed.

Lemma remove_registry_unbound (em0 : emitter)
    (reg : gmap EventName (gmap string nat)) :
  unbound_all reg em0
    (map_fold (λ _ listeners em,
                 map_fold (λ _ l em, remove_listener l em) em listeners)
              em0 reg).
Proof.
  revert reg.
  apply (map_fold_weak_ind (λ em m, unbound_all m em0 em)).
  - split; [done|]. split; [done|]. intros sub. split; [|tauto].
    intros Hin. split; [done|]. intros e ls k l He.
    by rewrite lookup_empty in He.
  - intros e ls m em Hfree (Hn & Ha & Hact).
    destruct (remove_bucket_unbound em ls) as (Hn' & Ha' & Hact').
    split; [congruence|]. split; [congruence|].
    intros sub. rewrite Hact', Hact. split.
    + intros ((Hin & Hm) & Hls). split; [done|]. intros e' ls' k l.
      destruct (decide (e = e')) as [<-|Hne].
      * rewrite lookup_insert_eq. intros [= <-]. apply Hls.
      * rewrite lookup_insert_ne by done. apply Hm.
    + intros (Hin & Hm). split; [split; [done|]|].
      * intros e' ls' k l He'. apply (Hm e').
        rewrite lookup_insert_ne; [done|]. intros ->. congruence.
      * intros k l. apply (Hm e). apply lookup_insert_eq.
Qed.

Lemma native_unregisterEvents (s : player) :
  native (_unregisterEvents s) = native s.
Proof. reflexivity. Qed.

(** C7: whatever the state, [destroy] forwards [stop()] and then
    [deInit()], once each and nothing else, empties the registry, and
    leaves bound no listener whose handle the registry held (it binds
    none either). *)
Theorem destroy_tears_down (s : player) :
  native (destroy s) = native s ++ [NStop; NDeInit] ∧
  _subscriptions (destroy s) = ∅ ∧
  (∀ e listeners k l,
     _subscriptions s !! e = Some listeners → listeners !! k = Some l →
     ∀ sub, sub ∈ active (events (destroy s)) → sub_id sub ≠ l) ∧
  (∀ sub, sub ∈ active (events (destroy s)) → sub ∈ active (events s)).
Proof.
  destruct (remove_registry_unbound (events s) (_subscriptions s))
    as (_ & _ & Hact).
  split; [|split; [|split]].
  - unfold destroy. simpl. by rewrite <- app_assoc.
  - reflexivity.
  - intros e ls k l He Hk sub Hsub. simpl in Hsub.
    apply Hact in Hsub as [_ Hm]. by apply (Hm e ls k l).
  - intros sub Hsub. simpl in Hsub. by apply Hact in Hsub as [? _].
Qed.

(** ** The command facade: guards *)



Lemma uri_dispatch (subs : list subscription) (p : payload) (s : player) :
  uri (dispatch subs p s) = uri s.
Proof.
  revert p s. induction subs as [|sub subs IH]; intros p s; simpl; [done|].
  unfold listener. destruct (sub_handler sub); by rewrite IH.
Qed.

Lemma uri_removeEventListener (e : EventName) (h : handler) (s : player) :
  uri (removeEventListener e h s) = uri s.
Proof.
  unfold removeEventListener.
  destruct (_subscriptions s !! e) as [ls|]; [|done].
  by destruct (ls !! handler_key h), (size ls =? 1)%nat.
Qed.

Lemma uri_seekTo (t : num) (s : player) : uri (seekTo t s) = uri s.
Proof. unfold seekTo. by destruct (truthy (uri s)). Qed.

Lemma uri_step (s : player) (c : call) :
  (∀ source, c ≠ Init source) → uri (step s c) = uri s.
Proof.
  intros Hc. destruct c; simpl.
  - by destruct (Hc source).
  - unfold play. by destruct (truthy (uri s)).
  - unfold pause. by destruct (truthy (uri s)).
  - unfold stop. by destruct (truthy (uri s)).
  - apply uri_seekTo.
  - done.
  - done.
  - done.
  - apply uri_removeEventListener.
  - apply uri_dispatch.
Qed.

Lemma uri_before_init (cs : list call) (s : player) :
  Forall (λ c, ∀ source, c ≠ Init source) cs → uri (run cs s) = uri s.
Proof.
  intros Hcs. revert s. induction Hcs as [|c cs Hc _ IH]; intros s; [done|].
  unfold run in *. simpl. rewrite IH. by apply uri_step.
Qed.

(** C6: with no source URI set, [play], [pause], [stop] and [seekTo]
    forward nothing to the native module and [position] returns a
    falsy value; every state reached from the loaded module without a
    call of [init] is such a state. *)
Theorem no_uri_no_command :
  (∀ (s : player) (x : num),
     truthy (uri s) = false →
     native (play s) = native s ∧
     native (pause s) = native s ∧
     native (stop s) = native s ∧
     native (seekTo x s) = native s ∧
     truthy (position s) = false) ∧
  (∀ (pos : val) (cs : list call),
     Forall (λ c, ∀ source, c ≠ Init source) cs →
     truthy (uri (run cs (loaded pos))) = false).
Proof.
  split.
  - intros s x Hu.
    unfold play, pause, stop, seekTo, position. rewrite Hu.
    by repeat split.
  - intros pos cs Hcs. by rewrite uri_before_init.
Qed.

Lemma native_seekTo (t : num) (s : player) :
  truthy (uri s) = true →
  ∃ v, native (seekTo t s) = native s ++ [NSeekTo v] ∧
       native (seekTo t (destroy s)) =
         native s ++ [NStop; NDeInit; NSeekTo v].
Proof.
  intros Hu. unfold seekTo. simpl. rewrite Hu.
  eexists. split; [reflexivity|]. simpl. by rewrite <- !app_assoc.
Qed.

(** C10: [destroy] changes neither [uri] nor [duration]; so when a
    URI was set, a later [play], [pause], [stop] or [seekTo] is still
    forwarded, after the [stop()] and [deInit()] of [destroy]. *)
Theorem destroy_keeps_source (s : player) (t : num) :
  uri (destroy s) = uri s ∧
  duration (destroy s) = duration s ∧
  (truthy (uri s) = true →
     native (play (destroy s)) = native s ++ [NStop; NDeInit; NPlay] ∧
     native (pause (destroy s)) = native s ++ [NStop; NDeInit; NPause] ∧
     native (stop (destroy s)) = native s ++ [NStop; NDeInit; NStop] ∧
     ∃ v, native (seekTo t s) = native s ++ [NSeekTo v] ∧
          native (seekTo t (destroy s)) =
            native s ++ [NStop; NDeInit; NSeekTo v]).
Proof.
  split; [reflexivity|]. split; [reflexivity|]. intros Hu.
  unfold play, pause, stop. simpl. rewrite Hu. simpl.
  rewrite <- !app_assoc. simpl.
  repeat split. by apply native_seekTo.
Qed.

(** ** Seeking *)

Ltac num_order :=
  unfold num_lt, num_le, Qltb, int, inject_Z in *; simpl in *;
  repeat match goal with
         | H : (_ <? _) = true |- _ => apply Z.ltb_lt in H
         | H : (_ <? _) = false |- _ => apply Z.ltb_ge in H
         | H : (_ <=? _) = true |- _ => apply Z.leb_le in H
         | H : (_ <=? _) = false |- _ => apply Z.leb_gt in H
         | |- (_ <? _) = true => apply Z.ltb_lt
         | |- (_ <=? _) = true => apply Z.leb_le
         end;
  try discriminate; try reflexivity; try lia; try nia.

Lemma truthy_positive (d : num) :
  num_lt (int 0) d = true → truthy (VNum d) = true.
Proof.
  destruct d as [q| | |]; intros Hd; try discriminate; try reflexivity.
  simpl. apply negb_true_iff, Z.eqb_neq. num_order.
Qed.

(** C8 (as amended): with a URI set and a known duration [d > 0],
    [seekTo(t)] forwards exactly one seek, to [t] clamped to [0, d]:
    0 when [t <= 0] or [t] is NaN, [t] itself when [0 < t < d], and [d]
    when [d <= t]. *)
Theorem seekTo_clamps (d t : num) (s : player) :
  truthy (uri s) = true →
  duration s = VNum d →
  num_lt (int 0) d = true →
  ∃ r, native (seekTo t s) = native s ++ [NSeekTo (VNum r)] ∧
       num_le (int 0) r = true ∧ num_le r d = true ∧
       (num_le t (int 0) = true → r = int 0) ∧
       (t = NaN → r = int 0) ∧
       (num_lt (int 0) t = true → num_lt t d = true → r = t) ∧
       (num_le d t = true → r = d).
Proof.
  intros Hu Hd Hpos. unfold seekTo.
  rewrite Hu, Hd, (truthy_positive _ Hpos). cbn [ToNumber].
  destruct (num_lt (int 0) t) eqn:Ht.
  - destruct (num_lt t d) eqn:Htd.
    + exists t. split; [reflexivity|].
      repeat split; intros; destruct t, d; num_order.
    + exists d. split; [reflexivity|].
      repeat split; intros; destruct t, d; num_order.
  - rewrite Hpos. exists (int 0). split; [reflexivity|].
    repeat split; intros; destruct t, d; num_order.
Qed.

(** ** The guard of the internal "prepared" listener *)

Lemma session_dispatch (subs : list subscription) (p : payload) (s : player) :
  events (dispatch subs p s) = events s ∧
  _isPreparedEventReg (dispatch subs p s) = _isPreparedEventReg s.
Proof.
  revert p s. induction subs as [|sub subs IH]; intros p s; simpl; [done|].
  unfold listener.
  destruct (sub_handler sub); destruct (IH (decode p) s) as [IH1 IH2].
  - by rewrite (proj1 (IH _ _)), (proj2 (IH _ _)).
  - by rewrite (proj1 (IH _ _)), (proj2 (IH _ _)).
Qed.

Lemma added_removeEventListener (e : EventName) (h : handler) (s : player) :
  added (events (removeEventListener e h s)) = added (events s) ∧
  _isPreparedEventReg (removeEventListener e h s) = _isPreparedEventReg s.
Proof.
  unfold removeEventListener.
  destruct (_subscriptions s !! e) as [ls|]; [|done].
  by destruct (ls !! handler_key h), (size ls =? 1)%nat.
Qed.

Lemma added_destroy (s : player) :
  added (events (destroy s)) = added (events s).
Proof.
  simpl.
  by destruct (remove_registry_unbound (events s) (_subscriptions s))
    as (_ & -> & _).
Qed.

Lemma session_seekTo (t : num) (s : player) :
  events (seekTo t s) = events s ∧
  _isPreparedEventReg (seekTo t s) = _isPreparedEventReg s.
Proof. unfold seekTo. by destruct (truthy (uri s)). Qed.

Lemma prepared_registrations_app (s s' : player) (e : string) (h : handler) :
  added (events s') = added (events s) ++ [(e, h)] →
  prepared_registrations s' =
  (prepared_registrations s + if decide (h = DurationCapture) then 1 else 0)%nat.
Proof.
  intros Ha. unfold prepared_registrations. rewrite Ha, filter_app, length_app.
  f_equal. simpl. destruct (decide (h = DurationCapture)) as [->|Hne].
  - by rewrite filter_cons_True.
  - by rewrite filter_cons_False.
Qed.

Lemma prepared_registrations_same (s s' : player) :
  added (events s') = added (events s) →
  prepared_registrations s' = prepared_registrations s.
Proof. intros Ha. unfold prepared_registrations. by rewrite Ha. Qed.

(** A call other than [init] neither binds the internal listener nor
    touches the flag. *)
Lemma guard_step_other (s : player) (c : call) :
  (∀ source, c ≠ Init source) →
  prepared_registrations (step s c) = prepared_registrations s ∧
  _isPreparedEventReg (step s c) = _isPreparedEventReg s.
Proof.
  intros Hc. destruct c; simpl.
  - by destruct (Hc source).
  - unfold play. by destruct (truthy (uri s)).
  - unfold pause. by destruct (truthy (uri s)).
  - unfold stop. by destruct (truthy (uri s)).
  - destruct (session_seekTo time s) as [He Hf]. split; [|done].
    apply prepared_registrations_same. by rewrite He.
  - done.
  - split; [|done]. apply prepared_registrations_same, added_destroy.
  - split; [|done].
    rewrite (prepared_registrations_app s _ _ _
               (added_addEventListener eventName (App f) s)).
    simpl. lia.
  - destruct (added_removeEventListener eventName (App f) s) as [Ha Hf].
    split; [|done]. by apply prepared_registrations_same.
  - unfold emit. destruct (session_dispatch
      (filter (λ sub, sub_event sub = eventId) (active (events s)))
      eventData s) as [He Hf].
    split; [|done]. apply prepared_registrations_same. by rewrite He.
Qed.

(** [init]: the flag never goes back, the internal listener is bound
    exactly when the flag goes up, and a valid source raises it. *)
Lemma guard_init (source : val) (s s' : player) :
  init source s = Some s' →
  (_isPreparedEventReg s = true → _isPreparedEventReg s' = true) ∧
  prepared_registrations s' =
    (prepared_registrations s +
     if _isPreparedEventReg s then 0
     else if _isPreparedEventReg s' then 1 else 0)%nat ∧
  (∀ u, source_uri source = Some u → truthy u = true →
        _isPreparedEventReg s' = true).
Proof.
  unfold init. destruct (source_uri source) as [u|]; [|discriminate].
  simpl. destruct (truthy u) eqn:Hu; simpl.
  - destruct (_isPreparedEventReg s) eqn:Hf; intros [= <-]; simpl.
    + split; [done|]. split; [|done].
      unfold prepared_registrations. simpl. lia.
    + split; [done|]. split; [|done].
      unfold prepared_registrations. simpl.
      rewrite filter_app, length_app. by rewrite filter_cons_True.
  - intros [= <-]. simpl. split; [done|]. split.
    + unfold prepared_registrations. simpl.
      destruct (_isPreparedEventReg s); lia.
    + intros u' [= <-]. congruence.
Qed.

Lemma guard_step (s : player) (c : call) :
  (_isPreparedEventReg s = true → _isPreparedEventReg (step s c) = true) ∧
  prepared_registrations (step s c) =
    (prepared_registrations s +
     if _isPreparedEventReg s then 0
     else if _isPreparedEventReg (step s c) then 1 else 0)%nat.
Proof.
  assert (Hother : (∀ source, c ≠ Init source) →
    (_isPreparedEventReg s = true → _isPreparedEventReg (step s c) = true) ∧
    prepared_registrations (step s c) =
      (prepared_registrations s +
       if _isPreparedEventReg s then 0
       else if _isPreparedEventReg (step s c) then 1 else 0)%nat).
  { intros Hc. destruct (guard_step_other s c Hc) as [Hn Hf].
    rewrite Hn, Hf. split; [done|].
    destruct (_isPreparedEventReg s); lia. }
  destruct c as [source| | | | | | | | |]; try (by apply Hother).
  simpl. destruct (init source s) as [s'|] eqn:Hi; simpl.
  - destruct (guard_init _ _ _ Hi) as (H1 & H2 & _). by split.
  - split; [done|]. destruct (_isPreparedEventReg s); lia.
Qed.

Lemma guard_run (cs : list call) (s : player) :
  (_isPreparedEventReg s = true → _isPreparedEventReg (run cs s) = true) ∧
  prepared_registrations (run cs s) =
    (prepared_registrations s +
     if _isPreparedEventReg s then 0
     else if _isPreparedEventReg (run cs s) then 1 else 0)%nat.
Proof.
  revert s. induction cs as [|c cs IH]; intros s.
  - simpl. split; [done|]. destruct (_isPreparedEventReg s); lia.
  - unfold run in *. simpl.
    destruct (guard_step s c) as [Hf Hn], (IH (step s c)) as [Hf' Hn'].
    split; [auto|]. rewrite Hn', Hn.
    destruct (_isPreparedEventReg s) eqn:Hs.
    + rewrite (Hf eq_refl). lia.
    + destruct (_isPreparedEventReg (step s c)) eqn:Hs'.
      * rewrite (Hf' eq_refl). lia.
      * lia.
Qed.

Lemma run_app (cs1 cs2 : list call) (s : player) :
  run (cs1 ++ cs2) s = run cs2 (run cs1 s).
Proof. unfold run. apply fold_left_app. Qed.

(** C9: in a session (any sequence of calls and native events from the
    loaded module) the internal "prepared" listener is bound at most
    once; it is bound exactly once as soon as one [init] had a valid
    source, in particular across two [init] calls with valid sources;
    [destroy] leaves the flag as it was, and once the flag is up no
    later call, after [destroy] or not, binds the listener again. *)
Theorem prepared_listener_bound_once :
  (∀ (pos : val) (cs : list call),
     (prepared_registrations (run cs (loaded pos)) ≤ 1)%nat) ∧
  (∀ (pos : val) (cs1 cs2 : list call) (source u : val),
     source_uri source = Some u → truthy u = true →
     prepared_registrations (run (cs1 ++ Init source :: cs2) (loaded pos))
       = 1%nat) ∧
  (∀ (pos : val) (source1 source2 u1 u2 : val),
     source_uri source1 = Some u1 → truthy u1 = true →
     source_uri source2 = Some u2 → truthy u2 = true →
     prepared_registrations (run [Init source1; Init source2] (loaded pos))
       = 1%nat) ∧
  (∀ s : player, _isPreparedEventReg (destroy s) = _isPreparedEventReg s) ∧
  (∀ (s : player) (cs : list call),
     _isPreparedEventReg s = true →
     prepared_registrations (run cs (destroy s)) = prepared_registrations s).
Proof.
  assert (Hvalid : ∀ pos cs1 cs2 source u,
    source_uri source = Some u → truthy u = true →
    prepared_registrations (run (cs1 ++ Init source :: cs2) (loaded pos))
      = 1%nat).
  { intros pos cs1 cs2 source u Hs Hu.
    rewrite run_app. change (Init source :: cs2) with ([Init source] ++ cs2).
    rewrite run_app. set (s1 := run cs1 (loaded pos)).
    assert (Hflag : _isPreparedEventReg (run [Init source] s1) = true).
    { unfold run. simpl. destruct (init source s1) as [s'|] eqn:Hi.
      - simpl. by apply (guard_init _ _ _ Hi) with u.
      - unfold init in Hi. rewrite Hs in Hi. simpl in Hi.
        rewrite Hu in Hi. simpl in Hi.
        by destruct (_isPreparedEventReg s1). }
    destruct (guard_run (cs1 ++ [Init source] ++ cs2) (loaded pos))
      as [_ Hn].
    rewrite !run_app in Hn. fold s1 in Hn. rewrite Hn.
    destruct (guard_run cs2 (run [Init source] s1)) as [Hf _].
    by rewrite (Hf Hflag). }
  split; [|split; [|split; [|split]]].
  - intros pos cs. destruct (guard_run cs (loaded pos)) as [_ Hn].
    rewrite Hn. simpl. destruct (_isPreparedEventReg (run _ _)); lia.
  - exact Hvalid.
  - intros pos source1 source2 u1 u2 H1 Hu1 _ _.
    apply (Hvalid pos [] [Init source2] source1 u1 H1 Hu1).
  - reflexivity.
  - intros s cs Hf. destruct (guard_run cs (destroy s)) as [_ Hn].
    rewrite Hn. change (_isPreparedEventReg (destroy s))
      with (_isPreparedEventReg s). rewrite Hf.
    rewrite (prepared_registrations_same s (destroy s) (added_destroy s)).
    lia.
Qed.

(** ** More on the decoder *)

Lemma js_get_decode_other (p : payload) (k : string) :
  k ≠ "EVENT_RESULT" → js_get (decode p) k = js_get p k.
Proof.
  intros Hk. unfold decode.
  destruct (as_integer (js_get p "ret_code")); [|done].
  unfold js_get. by rewrite lookup_insert_ne.
Qed.

Lemma decode_decode (p : payload) : decode (decode p) = decode p.
Proof.
  unfold decode at 1. rewrite js_get_decode_other by done.
  unfold decode. destruct (as_integer (js_get p "ret_code")); [|done].
  apply insert_insert_eq.
Qed.

(** X1: decoding is idempotent, and it changes no property other than
    [EVENT_RESULT]: a payload object that goes through the listeners of
    several handlers is the same after the first one. *)
Theorem decode_idempotent (p : payload) :
  decode (decode p) = decode p ∧
  ∀ k, k ≠ "EVENT_RESULT" → decode p !! k = p !! k.
Proof.
  split; [apply decode_decode|].
  intros k Hk. unfold decode.
  destruct (as_integer (js_get p "ret_code")); [|done].
  by rewrite lookup_insert_ne.
Qed.

Lemma nth_error_list_lookup {A} (l : list A) (n : nat) :
  nth_error l n = l !! n.
Proof. revert n. induction l as [|x l IH]; intros [|n]; simpl; auto. Qed.

Lemma EVENT_RESULTS_NoDup : NoDup EVENT_RESULTS.
Proof. apply (bool_decide_unpack _). by vm_compute. Qed.

(** X2: on the codes 0 to 18 the decoder is total and injective: each
    code gets a name of the table, and two codes with the same name are
    the same code. *)
Theorem decode_codes_injective (i j : Z) :
  0 ≤ i ≤ 18 → 0 ≤ j ≤ 18 →
  (∃ name, array_get EVENT_RESULTS i = VStr name ∧ name ∈ EVENT_RESULTS) ∧
  (array_get EVENT_RESULTS i = array_get EVENT_RESULTS j → i = j).
Proof.
  intros Hi Hj.
  assert (Hget : ∀ n, 0 ≤ n ≤ 18 →
            ∃ name, array_get EVENT_RESULTS n = VStr name ∧
                    EVENT_RESULTS !! Z.to_nat n = Some name).
  { intros n Hn. unfold array_get. destruct (Z.ltb_spec n 0); [lia|].
    destruct (nth_error EVENT_RESULTS (Z.to_nat n)) as [name|] eqn:Hnth.
    - exists name. split; [done|]. by rewrite <- nth_error_list_lookup.
    - apply nth_error_None in Hnth. simpl in Hnth. lia. }
  destruct (Hget i Hi) as (ni & Hni & Hli), (Hget j Hj) as (nj & Hnj & Hlj).
  split.
  - exists ni. split; [done|]. by eapply list_elem_of_lookup_2.
  - rewrite Hni, Hnj. intros [= <-].
    pose proof (NoDup_lookup _ _ _ _ EVENT_RESULTS_NoDup Hli Hlj). lia.
Qed.

(** ** More on delivery *)

Lemma deliveries_map (subs : list subscription) (p : payload) :
  deliveries subs p = (λ f, (f, decode p)) <$> omap app_of subs.
Proof.
  revert p. induction subs as [|sub subs IH]; intros p; [done|].
  simpl. unfold app_of at 1.
  destruct (sub_handler sub) as [f|]; simpl;
    rewrite IH, decode_decode; reflexivity.
Qed.

Lemma invocations_bound_handlers (eventId : string) (p : payload) (s : player) :
  invocations eventId p s = (λ f, (f, decode p)) <$> bound_handlers eventId s.
Proof. rewrite invocations_emit. apply deliveries_map. Qed.

Lemma MEDIA_PLAYER_EVENTS_inj (e e' : EventName) :
  MEDIA_PLAYER_EVENTS e = MEDIA_PLAYER_EVENTS e' → e = e'.
Proof. destruct e, e'; intros H; try reflexivity; discriminate H. Qed.

Lemma bound_handlers_addEventListener (e e' : EventName) (h : handler)
    (s : player) :
  bound_handlers (MEDIA_PLAYER_EVENTS e') (addEventListener e h s) =
  bound_handlers (MEDIA_PLAYER_EVENTS e') s ++
    (if decide (e = e') then
       match h with App f => [f] | DurationCapture => [] end
     else []).
Proof.
  unfold bound_handlers. rewrite active_addEventListener, filter_app, omap_app.
  f_equal. destruct (decide (e = e')) as [<-|Hne].
  - rewrite filter_cons_True by done. by destruct h.
  - rewrite filter_cons_False; [done|].
    simpl. intros He. by apply Hne, MEDIA_PLAYER_EVENTS_inj.
Qed.

(** X3: a native event calls every application handler bound to its
    identifier exactly once per bound listener, in registration order,
    and all of them receive the same payload, the decoded one. *)
Theorem emit_delivers_decoded (eventId : string) (p : payload) (s : player) :
  invocations eventId p s = (λ f, (f, decode p)) <$> bound_handlers eventId s.
Proof. apply invocations_bound_handlers. Qed.

Lemma invocations_addEventListener (e : EventName) (f : fn) (p : payload)
    (s : player) :
  invocations (MEDIA_PLAYER_EVENTS e) p (addEventListener e (App f) s) =
  invocations (MEDIA_PLAYER_EVENTS e) p s ++ [(f, decode p)].
Proof.
  rewrite !invocations_bound_handlers, bound_handlers_addEventListener.
  rewrite decide_True by done. by rewrite fmap_app.
Qed.

(** X4: once [addEventListener(e, f)] has returned, a native event for
    [e] calls [f] with the decoded payload, after the handlers that
    were bound before, whose calls are unchanged. *)
Theorem addEventListener_then_emit (e : EventName) (f : fn) (p : payload)
    (s : player) :
  invocations (MEDIA_PLAYER_EVENTS e) p (addEventListener e (App f) s) =
  invocations (MEDIA_PLAYER_EVENTS e) p s ++ [(f, decode p)].
Proof. apply invocations_addEventListener. Qed.

(** X5: the event identifiers are pairwise different, so a handler
    added for one event name is not called on the events of another
    name. *)
Theorem addEventListener_other_event (e e' : EventName) (h : handler)
    (p : payload) (s : player) :
  e ≠ e' →
  invocations (MEDIA_PLAYER_EVENTS e') p (addEventListener e h s) =
  invocations (MEDIA_PLAYER_EVENTS e') p s.
Proof.
  intros Hne. rewrite !invocations_bound_handlers, bound_handlers_addEventListener.
  rewrite decide_False by done. by rewrite app_nil_r.
Qed.

(** X6: adding the same handler twice for the same event name binds
    two listeners and keeps one registry entry, which holds the second
    handle: every event then calls the handler twice, and the first
    listener stays bound. *)
Theorem addEventListener_twice (e : EventName) (f : fn) (p : payload)
    (s : player) :
  let s2 := addEventListener e (App f) (addEventListener e (App f) s) in
  invocations (MEDIA_PLAYER_EVENTS e) p s2 =
    invocations (MEDIA_PLAYER_EVENTS e) p s ++ [(f, decode p); (f, decode p)] ∧
  _subscriptions s2 =
    <[e := <[fn_src f := S (next_id (events s))]>
             (default ∅ (_subscriptions s !! e))]> (_subscriptions s) ∧
  {| sub_id := next_id (events s); sub_event := MEDIA_PLAYER_EVENTS e;
     sub_handler := App f |} ∈ active (events s2).
Proof.
  intros s2. subst s2. split; [|split].
  - rewrite !invocations_addEventListener. by rewrite <- app_assoc.
  - rewrite !subscriptions_addEventListener. rewrite lookup_insert_eq. simpl.
    by rewrite insert_insert_eq, insert_insert_eq.
  - rewrite !active_addEventListener. set_solver.
Qed.

(** ** What a native event changes *)

Lemma duration_dispatch (subs : list subscription) (p : payload) (s : player) :
  (Exists (λ sub, sub_handler sub = DurationCapture) subs →
   duration (dispatch subs p s) = js_get p "duration") ∧
  (Forall (λ sub, sub_handler sub ≠ DurationCapture) subs →
   duration (dispatch subs p s) = duration s).
Proof.
  revert p s. induction subs as [|sub subs IH]; intros p s.
  - split; [by intros ?%Exists_nil|done].
  - cbn [dispatch]. unfold listener.
    destruct (sub_handler sub) as [f|] eqn:Hh.
    + destruct (IH (decode p) (invoke f (decode p) s)) as [IHy IHn]. split.
      * intros [Hc|Hc]%Exists_cons; [congruence|].
        rewrite (IHy Hc). by apply js_get_decode_other.
      * intros [_ Hc]%Forall_cons. by rewrite (IHn Hc).
    + destruct (IH (decode p)
                  (with_session (uri s) (js_get (decode p) "duration")
                     (_isPreparedEventReg s) s)) as [IHy IHn].
      split; [|by intros [? _]%Forall_cons].
      intros _.
      destruct (decide (Exists (λ sub, sub_handler sub = DurationCapture)
                               subs)) as [Hc|Hc].
      * rewrite (IHy Hc). by apply js_get_decode_other.
      * apply not_Exists_Forall in Hc; [|apply _].
        rewrite (IHn Hc). simpl. by apply js_get_decode_other.
Qed.

Lemma frame_dispatch (subs : list subscription) (p : payload) (s : player) :
  uri (dispatch subs p s) = uri s ∧
  _isPreparedEventReg (dispatch subs p s) = _isPreparedEventReg s ∧
  _subscriptions (dispatch subs p s) = _subscriptions s ∧
  events (dispatch subs p s) = events s ∧
  native (dispatch subs p s) = native s ∧
  console (dispatch subs p s) = console s.
Proof.
  revert p s. induction subs as [|sub subs IH]; intros p s; simpl; [done|].
  unfold listener. destruct (sub_handler sub) as [f|].
  - by destruct (IH (decode p) (invoke f (decode p) s))
      as (-> & -> & -> & -> & -> & ->).
  - by destruct (IH (decode p)
                   (with_session (uri s) (js_get (decode p) "duration")
                      (_isPreparedEventReg s) s))
      as (-> & -> & -> & -> & -> & ->).
Qed.

Lemma emit_frame (eventId : string) (p : payload)
    (s : player) :
  duration (emit eventId p s) =
    (if captures eventId s then js_get p "duration" else duration s) ∧
  uri (emit eventId p s) = uri s ∧
  _isPreparedEventReg (emit eventId p s) = _isPreparedEventReg s ∧
  _subscriptions (emit eventId p s) = _subscriptions s ∧
  events (emit eventId p s) = events s ∧
  native (emit eventId p s) = native s.
Proof.
  unfold emit. split.
  - destruct (duration_dispatch
      (filter (λ sub, sub_event sub = eventId) (active (events s))) p s)
      as [Hy Hn].
    unfold captures. case_bool_decide as Hc.
    + apply Hy. apply Exists_exists in Hc as (sub & ? & ? & ?).
      apply Exists_exists. exists sub. split; [|done].
      by apply list_elem_of_filter.
    + apply Hn. apply Forall_forall.
      intros sub [? ?]%list_elem_of_filter Hh. apply Hc.
      apply Exists_exists. by exists sub.
  - destruct (frame_dispatch
      (filter (λ sub, sub_event sub = eventId) (active (events s))) p s)
      as (? & ? & ? & ? & ? & ?). done.
Qed.


(** ** More on [init] *)

(** X8: [init] with a source whose URI is falsy (an empty string, an
    asset without URI) forwards nothing and binds nothing: it logs the
    warning, resets the duration and stores the falsy URI, so that the
    commands that follow are not forwarded even if a source was set
    before. *)
Theorem init_without_uri (source u : val) (s : player) :
  source_uri source = Some u → truthy u = false →
  ∃ s', init source s = Some s' ∧
        native s' = native s ∧
        console s' = console s ++ ["uri should not be an empty"] ∧
        uri s' = u ∧ duration s' = VNull ∧
        _isPreparedEventReg s' = _isPreparedEventReg s ∧
        events s' = events s ∧ _subscriptions s' = _subscriptions s ∧
        native (play s') = native s ∧ native (pause s') = native s ∧
        native (stop s') = native s ∧
        ∀ t, native (seekTo t s') = native s.
Proof.
  intros Hs Hu. unfold init. rewrite Hs. simpl. rewrite Hu. simpl.
  eexists. split; [reflexivity|].
  unfold play, pause, stop, seekTo. simpl. rewrite Hu. by repeat split.
Qed.

Lemma init_valid (source u : val) (s : player) :
  source_uri source = Some u → truthy u = true →
  ∃ s', init source s = Some s' ∧
        native s' = native s ++ [NInit u] ∧
        uri s' = u ∧ duration s' = VNull ∧
        _isPreparedEventReg s' = true ∧
        console s' = console s ∧
        (_isPreparedEventReg s = true →
           events s' = events s ∧ _subscriptions s' = _subscriptions s) ∧
        (_isPreparedEventReg s = false →
           ∀ p, duration (emit (MEDIA_PLAYER_EVENTS prepared) p s')
                = js_get p "duration").
Proof.
  intros Hs Hu. unfold init. rewrite Hs. simpl. rewrite Hu. simpl.
  eexists. split; [reflexivity|].
  destruct (_isPreparedEventReg s) eqn:Hf; simpl.
  - repeat split; try done.
  - repeat split; try done. intros _ p.
    rewrite (proj1 (emit_frame _ _ _)).
    unfold captures. rewrite bool_decide_eq_true_2; [done|].
    apply Exists_exists.
    exists {| sub_id := next_id (events s);
              sub_event := MEDIA_PLAYER_EVENTS prepared;
              sub_handler := DurationCapture |}.
    split; [|done]. simpl. set_solver.
Qed.

(** X9: [init] with a source whose URI is truthy forwards exactly
    [init(uri)], stores the URI, resets the duration and raises the
    flag.  When the flag was up it touches neither the registry nor the
    emitter; when it was down, the next "prepared" event stores its
    [duration] field. *)
Theorem init_with_uri (source u : val) (s : player) :
  source_uri source = Some u → truthy u = true →
  ∃ s', init source s = Some s' ∧
        native s' = native s ++ [NInit u] ∧
        uri s' = u ∧ duration s' = VNull ∧
        _isPreparedEventReg s' = true ∧
        console s' = console s ∧
        (_isPreparedEventReg s = true →
           events s' = events s ∧ _subscriptions s' = _subscriptions s) ∧
        (_isPreparedEventReg s = false →
           ∀ p, duration (emit (MEDIA_PLAYER_EVENTS prepared) p s')
                = js_get p "duration").
Proof. apply init_valid. Qed.

(** ** More on teardown *)

Lemma active_destroy (s : player) (sub : subscription) :
  sub ∈ active (events (destroy s)) ↔
  sub ∈ active (events s) ∧ ¬ held s (sub_id sub).
Proof.
  destruct (remove_registry_unbound (events s) (_subscriptions s))
    as (_ & _ & Hact).
  simpl. rewrite Hact. split; intros [Hin Hm]; (split; [done|]).
  - intros (e & ls & k & He & Hk). by apply (Hm e ls k (sub_id sub)).
  - intros e ls k l He Hk Heq. subst l. apply Hm. by exists e, ls, k.
Qed.

(** X10: [destroy] unbinds exactly the listeners whose handle the
    registry holds: a listener whose handle was overwritten or dropped
    from the registry stays bound, and its handler is still called. *)
Theorem destroy_unbinds_held (s : player) (sub : subscription) :
  sub ∈ active (events (destroy s)) ↔
  sub ∈ active (events s) ∧ ¬ held s (sub_id sub).
Proof. apply active_destroy. Qed.

(** X11: after [destroy], the duration is never captured again.  With
    the flag up and every bound internal listener held by the registry,
    [destroy] followed by an [init] with a valid source leaves a player
    whose duration stays unset whatever event arrives. *)
Theorem no_capture_after_destroy (source u : val) (s : player) :
  _isPreparedEventReg s = true →
  (∀ sub, sub ∈ active (events s) → sub_handler sub = DurationCapture →
          held s (sub_id sub)) →
  source_uri source = Some u → truthy u = true →
  ∃ s', init source (destroy s) = Some s' ∧
        ∀ eventId p, duration (emit eventId p s') = VNull.
Proof.
  intros Hf Hheld Hs Hu.
  destruct (init_valid source u (destroy s) Hs Hu)
    as (s' & Hinit & _ & _ & Hd & _ & _ & Hsame & _).
  exists s'. split; [done|]. intros eventId p.
  destruct (Hsame Hf) as [Hev _].
  rewrite (proj1 (emit_frame _ _ _)), Hd.
  unfold captures. rewrite bool_decide_eq_false_2; [done|].
  intros (sub & Hin & _ & Hh)%Exists_exists.
  rewrite Hev in Hin. apply active_destroy in Hin as [Hin Hnot].
  by apply Hnot, Hheld.
Qed.

(** ** Seeking without a known duration *)

(** X12: while the duration is unset (or zero, or NaN), [seekTo]
    applies the lower bound only: it forwards one seek, to a position
    that is never negative nor NaN, and that is [t] itself whenever
    [t > 0], however large. *)
Theorem seekTo_without_duration (t : num) (s : player) :
  truthy (uri s) = true → truthy (duration s) = false →
  ∃ r, native (seekTo t s) = native s ++ [NSeekTo (VNum r)] ∧
       num_le (int 0) r = true ∧
       (num_lt (int 0) t = true → r = t).
Proof.
  intros Hu Hd. unfold seekTo. rewrite Hu, Hd.
  destruct (num_lt (int 0) t) eqn:Ht.
  - exists t. split; [done|]. split; [|done]. destruct t; num_order.
  - exists (int 0). split; [done|]. split; [|done]. num_order.
Qed.

(** ** Invariants of the registry *)


Lemma consistent_ext (s s' : player) :
  events s' = events s → _subscriptions s' = _subscriptions s →
  consistent s → consistent s'.
Proof.
  intros He Hr (H1 & H2 & H3). unfold consistent, no_empty_bucket,
    entries_bound. rewrite He, Hr. done.
Qed.

Lemma consistent_loaded (pos : val) : consistent (loaded pos).
Proof.
  split; [|split].
  - intros e ls He. by destruct (lookup_empty_Some _ _ He).
  - split; [constructor|]. intros sub Hin. by apply elem_of_nil in Hin.
  - intros e ls k l He. by destruct (lookup_empty_Some _ _ He).
Qed.

Lemma consistent_addEventListener (e : EventName) (h : handler) (s : player) :
  consistent s → consistent (addEventListener e h s).
Proof.
  intros (Hne & [Hnd Hlt] & Hb). split; [|split].
  - intros e' ls. rewrite subscriptions_addEventListener.
    destruct (decide (e = e')) as [<-|Hee].
    + rewrite lookup_insert_eq. intros [= <-]. apply insert_non_empty.
    + rewrite lookup_insert_ne by done. apply Hne.
  - split.
    + rewrite active_addEventListener, fmap_app. apply NoDup_app.
      split; [done|]. split; [|apply NoDup_singleton].
      intros l (sub & -> & Hin)%list_elem_of_fmap Hl.
      apply list_elem_of_singleton in Hl. simpl in Hl.
      specialize (Hlt sub Hin). lia.
    + intros sub. rewrite active_addEventListener.
      intros [Hin| ->%list_elem_of_singleton]%elem_of_app; simpl.
      * specialize (Hlt sub Hin). lia.
      * lia.
  - intros e' ls k l. rewrite subscriptions_addEventListener,
      active_addEventListener.
    destruct (decide (e = e')) as [<-|Hee].
    + rewrite lookup_insert_eq. intros [= <-].
      destruct (decide (handler_key h = k)) as [<-|Hk].
      * rewrite lookup_insert_eq. intros [= <-]. exists h.
        split; [done|]. set_solver.
      * rewrite lookup_insert_ne by done.
        destruct (_subscriptions s !! e) as [ls|] eqn:He; simpl.
        -- intros Hl. destruct (Hb e ls k l He Hl) as (h' & ? & ?).
           exists h'. split; [done|]. set_solver.
        -- by rewrite lookup_empty.
    + rewrite lookup_insert_ne by done. intros He Hl.
      destruct (Hb e' ls k l He Hl) as (h' & ? & ?).
      exists h'. split; [done|]. set_solver.
Qed.

Lemma removeEventListener_entries (e e' : EventName) (h : handler)
    (s : player) (ls' : gmap string nat) (k' : string) (l' : nat) :
  _subscriptions (removeEventListener e h s) !! e' = Some ls' →
  ls' !! k' = Some l' →
  (∃ ls, _subscriptions s !! e' = Some ls ∧ ls !! k' = Some l') ∧
  (is_Some (_subscriptions s !! e) → (e', k') ≠ (e, handler_key h)).
Proof.
  destruct (_subscriptions s !! e) as [b|] eqn:He.
  - rewrite (subscriptions_removeEventListener _ _ _ _ He).
    destruct (size b =? 1)%nat.
    + destruct (decide (e = e')) as [<-|Hee].
      * by rewrite lookup_delete_eq.
      * rewrite lookup_delete_ne by done. intros He' Hl. split; [eauto|].
        intros _ [= He1 _]. by apply Hee.
    + destruct (decide (e = e')) as [<-|Hee].
      * rewrite lookup_insert_eq. intros [= <-].
        destruct (decide (handler_key h = k')) as [<-|Hk].
        -- by rewrite lookup_delete_eq.
        -- rewrite lookup_delete_ne by done. intros Hl. split; [eauto|].
           intros _ [= Hk']. by apply Hk.
      * rewrite lookup_insert_ne by done. intros He' Hl. split; [eauto|].
        intros _ [= He1 _]. by apply Hee.
  - rewrite removeEventListener_no_bucket by done. intros He' Hl.
    split; [eauto|]. by intros [? ?].
Qed.

Lemma consistent_removeEventListener (e : EventName) (h : handler)
    (s : player) :
  consistent s → consistent (removeEventListener e h s).
Proof.
  intros (Hne & Hfresh & Hb).
  destruct (_subscriptions s !! e) as [b|] eqn:He;
    [|by rewrite removeEventListener_no_bucket].
  assert (Hsub : active (events (removeEventListener e h s))
                 `sublist_of` active (events s)).
  { rewrite (active_removeEventListener _ _ _ _ He).
    destruct (b !! handler_key h); [apply sublist_filter|done]. }
  assert (Hnext : next_id (events (removeEventListener e h s))
                  = next_id (events s)).
  { unfold removeEventListener. rewrite He.
    by destruct (b !! handler_key h), (size b =? 1)%nat. }
  split; [|split].
  - intros e' ls'. rewrite (subscriptions_removeEventListener _ _ _ _ He).
    destruct (Nat.eqb_spec (size b) 1) as [Hsz|Hsz].
    + destruct (decide (e = e')) as [<-|Hee].
      * by rewrite lookup_delete_eq.
      * rewrite lookup_delete_ne by done. apply Hne.
    + destruct (decide (e = e')) as [<-|Hee].
      * rewrite lookup_insert_eq. intros [= <-] Hempty.
        apply (f_equal size) in Hempty.
        rewrite map_size_empty, map_size_delete in Hempty.
        pose proof (Hne e b He) as Hb0.
        apply map_size_non_empty_iff in Hb0.
        destruct (b !! handler_key h); simpl in Hempty; lia.
      * rewrite lookup_insert_ne by done. apply Hne.
  - destruct Hfresh as [Hnd Hlt]. split.
    + eapply sublist_NoDup; [exact Hnd|]. by apply fmap_sublist.
    + intros sub Hin. rewrite Hnext. apply Hlt.
      by eapply elem_of_sublist.
  - intros e' ls' k' l' He' Hl'.
    destruct (removeEventListener_entries _ _ _ _ _ _ _ He' Hl')
      as [(ls & Hls & Hl) Hother].
    destruct (Hb e' ls k' l' Hls Hl) as (h' & Hkey & Hin).
    exists h'. split; [done|].
    rewrite (active_removeEventListener _ _ _ _ He).
    destruct (b !! handler_key h) as [l0|] eqn:Hl0; [|done].
    apply list_elem_of_filter. split; [|done]. simpl. intros ->.
    destruct (Hb e b (handler_key h) l0 He Hl0) as (h0 & Hkey0 & Hin0).
    pose proof (fresh_handles_inj _ _ _ Hfresh Hin Hin0 eq_refl) as Heq.
    injection Heq as Hw Hh. apply MEDIA_PLAYER_EVENTS_inj in Hw. subst.
    apply (Hother (mk_is_Some _ _ He)). by rewrite Hkey0.
Qed.

Lemma unregister_sublist (em0 : emitter)
    (reg : gmap EventName (gmap string nat)) :
  active (map_fold (λ _ listeners em,
                      map_fold (λ _ l em, remove_listener l em) em listeners)
                   em0 reg)
  `sublist_of` active em0.
Proof.
  revert reg.
  apply (map_fold_weak_ind (λ em _, active em `sublist_of` active em0));
    [done|].
  intros e ls _ em _ IH. etrans; [|exact IH]. clear IH. revert ls.
  apply (map_fold_weak_ind (λ em' _, active em' `sublist_of` active em));
    [done|].
  intros k l _ em' _ IH. etrans; [|exact IH]. apply sublist_filter.
Qed.

Lemma consistent_destroy (s : player) : consistent s → consistent (destroy s).
Proof.
  intros (_ & [Hnd Hlt] & _).
  destruct (remove_registry_unbound (events s) (_subscriptions s))
    as (Hnext & _ & _).
  pose proof (unregister_sublist (events s) (_subscriptions s)) as Hsub.
  split; [|split].
  - intros e ls He. by destruct (lookup_empty_Some _ _ He).
  - simpl. split.
    + eapply sublist_NoDup; [exact Hnd|]. by apply fmap_sublist.
    + intros sub Hin. rewrite Hnext. apply Hlt. by eapply elem_of_sublist.
  - intros e ls k l He. by destruct (lookup_empty_Some _ _ He).
Qed.

Lemma consistent_init (source : val) (s s' : player) :
  init source s = Some s' → consistent s → consistent s'.
Proof.
  unfold init. destruct (source_uri source) as [u|]; [|done]. simpl.
  destruct (truthy u); simpl; intros [= <-] Hc.
  - destruct (_isPreparedEventReg s); simpl.
    + by apply (consistent_ext s).
    + eapply consistent_ext; [| |apply (consistent_addEventListener
        prepared DurationCapture s Hc)]; done.
  - by apply (consistent_ext s).
Qed.

Lemma consistent_step (s : player) (c : call) :
  consistent s → consistent (step s c).
Proof.
  intros Hc. destruct c; simpl.
  - destruct (init source s) as [s'|] eqn:Hi; [|done].
    by apply (consistent_init source s).
  - unfold play. destruct (truthy (uri s)); [|done].
    by apply (consistent_ext s).
  - unfold pause. destruct (truthy (uri s)); [|done].
    by apply (consistent_ext s).
  - unfold stop. destruct (truthy (uri s)); [|done].
    by apply (consistent_ext s).
  - unfold seekTo. destruct (truthy (uri s)); [|done].
    by apply (consistent_ext s).
  - done.
  - by apply consistent_destroy.
  - by apply consistent_addEventListener.
  - by apply consistent_removeEventListener.
  - destruct (emit_frame eventId eventData s)
      as (_ & _ & _ & Hr & He & _).
    by apply (consistent_ext s).
Qed.

Lemma consistent_run (cs : list call) (s : player) :
  consistent s → consistent (run cs s).
Proof.
  revert s. induction cs as [|c cs IH]; intros s Hc; [done|].
  apply IH. by apply consistent_step.
Qed.

(** X13: in every state reached from the loaded module by calls and
    native events, no event name maps to an empty bucket: the bucket of
    an event name goes away with its last entry. *)
Theorem reachable_no_empty_bucket (pos : val) (cs : list call)
    (e : EventName) (listeners : gmap string nat) :
  _subscriptions (run cs (loaded pos)) !! e = Some listeners →
  (0 < size listeners)%nat.
Proof.
  intros He.
  destruct (consistent_run cs (loaded pos) (consistent_loaded pos))
    as (Hne & _ & _).
  pose proof (Hne e listeners He) as Hb.
  apply map_size_non_empty_iff in Hb. lia.
Qed.

(** X14: in every reachable state the registry has no dangling entry:
    each handle it holds belongs to a listener that is bound, to the
    event of its bucket and for a handler with the key of its entry;
    and no two bound listeners share a handle. *)
Theorem reachable_entries_bound (pos : val) (cs : list call) :
  entries_bound (run cs (loaded pos)) ∧
  fresh_handles (events (run cs (loaded pos))).
Proof.
  destruct (consistent_run cs (loaded pos) (consistent_loaded pos))
    as (_ & Hf & Hb).
  by split.
Qed.


End Host.

(** * The packager script *)

(** ** Strings *)

Lemma append_cons (c : ascii) (a b : string) :
  String c a +:+ b = String c (a +:+ b).
Proof. reflexivity. Qed.

Lemma append_nil_l (b : string) : "" +:+ b = b.
Proof. reflexivity. Qed.

Lemma length_append (a b : string) :
  String.length (a +:+ b) = (String.length a + String.length b)%nat.
Proof.
  induction a as [|x a IH]; [done|]. rewrite append_cons. simpl.
  by rewrite IH.
Qed.

Lemma prefix_append (pat b : string) : String.prefix pat (pat +:+ b) = true.
Proof.
  induction pat as [|c pat IH]; [by destruct b|].
  rewrite append_cons. simpl. by destruct (ascii_dec c c).
Qed.

Lemma prefix_split (pat s : string) :
  String.prefix pat s = true → ∃ b, s = pat +:+ b.
Proof.
  revert s. induction pat as [|c pat IH]; intros s; [by exists s|].
  destruct s as [|d s]; simpl; [done|].
  destruct (ascii_dec c d) as [<-|]; [|done].
  intros [b ->]%IH. exists b. by rewrite append_cons.
Qed.


Lemma substring_append (a b : string) :
  substring 0 (String.length a) (a +:+ b) = a.
Proof.
  induction a as [|c a IH]; [by destruct b|].
  rewrite append_cons. simpl. by rewrite IH.
Qed.

Lemma slice_prefix (a r : string) :
  slice (a +:+ r) 0 (Z.of_nat (String.length a)) = a.
Proof.
  unfold slice. rewrite length_append.
  change (0 <? 0) with false. cbv iota.
  destruct (Z.ltb_spec (Z.of_nat (String.length a)) 0) as [|_]; [lia|].
  rewrite (Z.min_l 0), Z.min_l, Z.max_l by lia.
  change (Z.to_nat 0) with 0%nat.
  rewrite Z.sub_0_r, Nat2Z.id. apply substring_append.
Qed.

Lemma slice_drop_last (s : string) :
  slice s 0 (-1) = substring 0 (String.length s - 1) s.
Proof.
  unfold slice. change (0 <? 0) with false. change (-1 <? 0) with true.
  cbv iota. rewrite Z.min_l by lia. change (Z.to_nat 0) with 0%nat.
  f_equal. lia.
Qed.

(** ** [indexOf] *)

(** The first occurrence: [s] splits at [a], and no occurrence starts
    further left. *)
Lemma indexOf_from_spec (pat s : string) (i : Z) :
  (indexOf_from pat s i = -1 ∧ ¬ occurs pat s) ∨
  (∃ a b, indexOf_from pat s i = i + Z.of_nat (String.length a) ∧
          s = a +:+ pat +:+ b ∧
          ∀ a' b', s = a' +:+ pat +:+ b' →
                   (String.length a ≤ String.length a')%nat).
Proof.
  revert i. induction s as [|c s IH]; intros i.
  - simpl. destruct pat as [|d pat]; simpl.
    + right. exists "", "". split; [simpl; lia|]. split; [done|].
      intros; simpl; lia.
    + left. split; [done|]. intros (a & b & H). by destruct a.
  - cbn [indexOf_from]. destruct (String.prefix pat (String c s)) eqn:Hp.
    + right. destruct (prefix_split _ _ Hp) as [b Hb].
      exists "", b. split; [simpl; lia|]. split; [done|].
      intros; simpl; lia.
    + assert (Hhead : ∀ a' b', String c s = a' +:+ pat +:+ b' →
                ∃ a'', a' = String c a'' ∧ s = a'' +:+ pat +:+ b').
      { intros a' b' H. destruct a' as [|x a'].
        - rewrite append_nil_l in H. rewrite H, prefix_append in Hp. done.
        - rewrite append_cons in H. injection H as -> ->. by exists a'. }
      destruct (IH (i + 1)) as [[Hi Hno]|(a & b & Hi & Hs & Hmin)].
      * left. split; [done|]. intros (a' & b' & H).
        destruct (Hhead _ _ H) as (a'' & -> & Hs). apply Hno. by exists a'', b'.
      * right. exists (String c a), b. rewrite Hi, append_cons, <- Hs.
        simpl String.length. split; [lia|]. split; [done|].
        intros a' b' H.
        destruct (Hhead _ _ H) as (a'' & -> & Hs'). simpl.
        specialize (Hmin _ _ Hs'). lia.
Qed.

(** X16: when the build directory of the package occurs in
    [__dirname], [getPath] returns what precedes its first occurrence:
    the directory of the application. *)
Theorem getPath_found (dirname name root rest : string) :
  dirname = root +:+ build_marker name +:+ rest →
  ∃ root' rest',
    getPath dirname name = root' ∧
    dirname = root' +:+ build_marker name +:+ rest' ∧
    (String.length root' ≤ String.length root)%nat ∧
    ∀ a b, dirname = a +:+ build_marker name +:+ b →
           (String.length root' ≤ String.length a)%nat.
Proof.
  intros Hd. unfold getPath, indexOf.
  destruct (indexOf_from_spec (build_marker name) dirname 0)
    as [[_ Hno]|(a & b & Hi & Hs & Hmin)].
  - destruct Hno. by exists root, rest.
  - exists a, b. split; [|split; [done|split; [by apply (Hmin root rest)|done]]].
    rewrite Hi, Z.add_0_l. rewrite Hs at 1. apply slice_prefix.
Qed.

(** X17: when the build directory of the package does not occur in
    [__dirname], [indexOf] answers -1 and [slice(0, -1)] drops the last
    character: [getPath] returns [__dirname] without its last
    character, not an error. *)
Theorem getPath_not_found (dirname name : string) :
  ¬ occurs (build_marker name) dirname →
  getPath dirname name = substring 0 (String.length dirname - 1) dirname.
Proof.
  intros Hno. unfold getPath, indexOf.
  destruct (indexOf_from_spec (build_marker name) dirname 0)
    as [[Hi _]|(a & b & _ & Hs & _)].
  - rewrite Hi. apply slice_drop_last.
  - destruct Hno. by exists a, b.
Qed.

(** ** [checkCommand] *)

Lemma toLowerCase_ascii_d (c : ascii) :
  toLowerCase_ascii c = "d"%char ↔ c = "d"%char ∨ c = "D"%char.
Proof.
  destruct c as [[] [] [] [] [] [] [] []]; vm_compute;
    split; intros H; try discriminate H; try tauto;
    destruct H as [H|H]; discriminate H.
Qed.

Lemma toLowerCase_ascii_e (c : ascii) :
  toLowerCase_ascii c = "e"%char ↔ c = "e"%char ∨ c = "E"%char.
Proof.
  destruct c as [[] [] [] [] [] [] [] []]; vm_compute;
    split; intros H; try discriminate H; try tauto;
    destruct H as [H|H]; discriminate H.
Qed.

Lemma toLowerCase_ascii_v (c : ascii) :
  toLowerCase_ascii c = "v"%char ↔ c = "v"%char ∨ c = "V"%char.
Proof.
  destruct c as [[] [] [] [] [] [] [] []]; vm_compute;
    split; intros H; try discriminate H; try tauto;
    destruct H as [H|H]; discriminate H.
Qed.

Lemma toLowerCase_dev (s : string) :
  toLowerCase s = "dev" ↔
  s ∈ ["dev"; "deV"; "dEv"; "dEV"; "Dev"; "DeV"; "DEv"; "DEV"].
Proof.
  split.
  - destruct s as [|c1 [|c2 [|c3 [|c4 s]]]]; try discriminate.
    simpl. intros [= H1 H2 H3].
    apply toLowerCase_ascii_d in H1 as [-> | ->];
      apply toLowerCase_ascii_e in H2 as [-> | ->];
      apply toLowerCase_ascii_v in H3 as [-> | ->]; set_solver.
  - intros H. repeat (apply elem_of_cons in H as [->|H]; [reflexivity|]).
    by apply elem_of_nil in H.
Qed.

(** X18: [checkCommand] answers true exactly for the word "dev" in any
    mix of upper and lower case; it answers false for every other
    string and for a missing or falsy command, and it throws for a
    truthy command that is not a string (a number, which is what the
    argument parser produces for a numeric word). *)
Theorem checkCommand_dev (cmd : val) :
  (checkCommand cmd = Some true ↔
     ∃ s, cmd = VStr s ∧
          s ∈ ["dev"; "deV"; "dEv"; "dEV"; "Dev"; "DeV"; "DEv"; "DEV"]) ∧
  (checkCommand cmd = None ↔ truthy cmd = true ∧ ∀ s, cmd ≠ VStr s).
Proof.
  unfold checkCommand. split.
  - split.
    + destruct (truthy cmd) eqn:Ht; simpl; [|done].
      destruct cmd as [| | | |s]; try done.
      intros [= H%String.eqb_eq]. exists s. split; [done|].
      by apply toLowerCase_dev.
    + intros (s & -> & Hs).
      assert (Ht : truthy (VStr s) = true).
      { repeat (apply elem_of_cons in Hs as [->|Hs]; [reflexivity|]).
        by apply elem_of_nil in Hs. }
      rewrite Ht. simpl. f_equal. by apply String.eqb_eq, toLowerCase_dev.
  - destruct (truthy cmd) eqn:Ht; simpl.
    + destruct cmd as [| | | |s]; split; try done; try (by intros [_ ?]).
      intros [_ H]. by destruct (H s).
    + split; [done|]. by intros [? _].
Qed.

(** ** [replaceTizen] *)



Lemma append_inj_l (a x y : string) : a +:+ x = a +:+ y → x = y.
Proof.
  induction a as [|c a IH]; [done|].
  rewrite !append_cons. intros [= H]. by apply IH.
Qed.

Lemma packager_files_differ (appPath : string) :
  defaults_js appPath ≠ getPlatformExtension_js appPath.
Proof.
  unfold defaults_js, getPlatformExtension_js.
  intros H%append_inj_l%append_inj_l. discriminate H.
Qed.


(** ** [packager] *)

Lemma packager_both (dirname name : string) (command : val)
    (fs : gmap string string) (d g : string) :
  let appPath := getPath dirname name in
  fs !! defaults_js appPath = Some d →
  fs !! getPlatformExtension_js appPath = Some g →
  packager dirname name command fs =
  (<[defaults_js appPath :=
       replace_all "react-native-tizen" "react-native-sante"
         (replace_all "windows" "tizen" d)]>
     (<[getPlatformExtension_js appPath := replace_all "web" "tizen" g]> fs),
   bundle_command appPath <$> checkCommand command).
Proof.
  intros appPath Hd Hg. unfold packager, replaceTizen. fold appPath.
  pose proof (packager_files_differ appPath) as Hne.
  rewrite Hd. simpl. rewrite lookup_insert_ne, Hg by done. simpl.
  rewrite lookup_insert_ne, lookup_insert_eq by done. simpl.
  rewrite (insert_insert_ne _ (getPlatformExtension_js appPath)) by done.
  rewrite insert_insert_eq.
  rewrite (insert_insert_ne _ (defaults_js appPath)) by done.
  by destruct (checkCommand command).
Qed.


(** X21: a missing file stops [packager] before any command is
    executed.  Without [defaults.js] nothing is written; without
    [getPlatformExtension.js], [defaults.js] has already been rewritten
    by the first replacement and stays so. *)
Theorem packager_missing_file (dirname name : string) (command : val)
    (fs : gmap string string) :
  let appPath := getPath dirname name in
  (fs !! defaults_js appPath = None →
   packager dirname name command fs = (fs, None)) ∧
  (∀ d, fs !! defaults_js appPath = Some d →
        fs !! getPlatformExtension_js appPath = None →
        packager dirname name command fs =
        (<[defaults_js appPath := replace_all "windows" "tizen" d]> fs, None)).
Proof.
  intros appPath. unfold packager, replaceTizen. fold appPath. split.
  - by intros ->.
  - intros d Hd Hg. pose proof (packager_files_differ appPath) as Hne.
    rewrite Hd. simpl. by rewrite lookup_insert_ne, Hg.
Qed.

(** X22: with both files present, [packager] rewrites them, the second
    replacement in [defaults.js] working on the result of the first,
    and then executes the bundle command, whose [--dev] flag is the
    answer of [checkCommand]; when [checkCommand] throws, the files are
    rewritten and nothing is executed. *)
Theorem packager_rewrites_then_runs (dirname name : string) (command : val)
    (fs : gmap string string) (d g : string) :
  let appPath := getPath dirname name in
  fs !! defaults_js appPath = Some d →
  fs !! getPlatformExtension_js appPath = Some g →
  (packager dirname name command fs).1 =
    <[defaults_js appPath :=
        replace_all "react-native-tizen" "react-native-sante"
          (replace_all "windows" "tizen" d)]>
      (<[getPlatformExtension_js appPath := replace_all "web" "tizen" g]> fs) ∧
  (∀ dev, checkCommand command = Some dev →
     (packager dirname name command fs).2
       = Some (bundle_command appPath dev)) ∧
  (checkCommand command = None →
     (packager dirname name command fs).2 = None).
Proof.
  intros appPath Hd Hg.
  rewrite (packager_both dirname name command fs d g Hd Hg). fold appPath.
  simpl. split; [done|]. split; [by intros dev ->|by intros ->].
Qed.

(** ** Closed examples *)

(** [prepared_with d] is the state that the two steps produce. *)
Lemma prepared_with_reachable (d : val) :
  run no_assets unparsed
      [Init (VStr sample_url);
       NativeEvent "prepared" {[ "duration" := d ]}]
      (loaded VUndef)
  = prepared_with d.
Proof. reflexivity. Qed.

(** C1, the claim as written fails: [ret_code] 17 decodes to
    PLAYER_ERROR_OCCURED, the eighteenth entry of the table, not to
    PLAYER_TO_BE_EXTENDED. *)
Lemma ret_code_17_is_error_occured :
  let p' := (listener (App onStarted) {[ "ret_code" := VNum (int 17) ]}
               (loaded VUndef)).1 in
  js_get p' "EVENT_RESULT" = VStr "PLAYER_ERROR_OCCURED" ∧
  js_get p' "EVENT_RESULT" ≠ VStr "PLAYER_TO_BE_EXTENDED".
Proof. split; [reflexivity|discriminate]. Qed.

(** C1, an instance: the payloads [{ret_code: 18}], [{ret_code: "0"}]
    (a string) and [{position: 3}] (no [ret_code]). *)
Lemma listener_decodes_ret_code_witness :
  (listener (App onStarted) {[ "ret_code" := VNum (int 18) ]}
     (loaded VUndef)).1
    = <["EVENT_RESULT" := VStr "PLAYER_TO_BE_EXTENDED"]>
        {[ "ret_code" := VNum (int 18) ]} ∧
  (listener (App onStarted) {[ "ret_code" := VStr "0" ]} (loaded VUndef)).1
    = {[ "ret_code" := VStr "0" ]} ∧
  (listener (App onStarted) {[ "position" := VNum (int 3) ]}
     (loaded VUndef)).1
    = {[ "position" := VNum (int 3) ]}.
Proof.
  split; [|split].
  - apply (listener_decodes_ret_code onStarted
             {[ "ret_code" := VNum (int 18) ]} (loaded VUndef)).
    reflexivity.
  - apply (listener_decodes_ret_code onStarted
             {[ "ret_code" := VStr "0" ]} (loaded VUndef)).
    reflexivity.
  - apply (listener_decodes_ret_code onStarted
             {[ "position" := VNum (int 3) ]} (loaded VUndef)).
    reflexivity.
Defined.

(** C5, the claim as written fails: 18 lies outside [0, 17] and is
    decoded, to PLAYER_TO_BE_EXTENDED. *)
Lemma ret_code_18_is_decoded :
  let p := {[ "ret_code" := VNum (int 18) ]} in
  as_integer (js_get p "ret_code") = Some 18 ∧
  ¬ (0 ≤ 18 ≤ 17) ∧
  js_get (listener (App onStarted) p (loaded VUndef)).1 "EVENT_RESULT"
    = VStr "PLAYER_TO_BE_EXTENDED".
Proof. split; [reflexivity|]. split; [lia|reflexivity]. Qed.

(** C5, an instance: [ret_code] 19 and [ret_code] -1. *)
Lemma listener_out_of_range_witness :
  js_get (listener (App onStarted) {[ "ret_code" := VNum (int 19) ]}
            (loaded VUndef)).1 "EVENT_RESULT" = VUndef ∧
  js_get (listener (App onStarted) {[ "ret_code" := VNum (int (-1)) ]}
            (loaded VUndef)).1 "EVENT_RESULT" = VUndef.
Proof.
  split.
  - apply (listener_out_of_range onStarted
             {[ "ret_code" := VNum (int 19) ]} (loaded VUndef) 19);
      [reflexivity|lia].
  - apply (listener_out_of_range onStarted
             {[ "ret_code" := VNum (int (-1)) ]} (loaded VUndef) (-1));
      [reflexivity|lia].
Defined.

(** C2, the code at the failing input: [onStarted] is the only handler
    registered for "started"; removing [onPaused], which is not
    registered, deletes the bucket of "started".  The listener of
    [onStarted] stays bound and is still called, and no later
    [removeEventListener] can unbind it. *)
Lemma remove_unknown_handler_drops_bucket :
  let s := addEventListener started (App onStarted) (loaded VUndef) in
  let s' := removeEventListener started (App onPaused) s in
  _subscriptions s !! started = Some {[ fn_src onStarted := 0%nat ]} ∧
  _subscriptions s' = ∅ ∧
  active (events s') = active (events s) ∧
  invocations "started" ∅ s' = [(onStarted, ∅)] ∧
  removeEventListener started (App onStarted) s' = s'.
Proof. repeat split. Qed.

(** C3, the claim as written fails: when [onStarted] is already
    registered for "started", adding it again and removing it leaves
    the first listener bound, and a "started" event calls [onStarted]. *)
Lemma add_then_remove_after_add_still_invokes :
  let s := addEventListener started (App onStarted) (loaded VUndef) in
  let s' := removeEventListener started (App onStarted)
              (addEventListener started (App onStarted) s) in
  _subscriptions s' = ∅ ∧
  invocations (MEDIA_PLAYER_EVENTS started) ∅ s' = [(onStarted, ∅)] ∧
  ¬ (∀ x, x ∈ invocations (MEDIA_PLAYER_EVENTS started) ∅ s' →
          x.1 ≠ onStarted).
Proof.
  split; [reflexivity|]. split; [reflexivity|].
  intros H. apply (H (onStarted, ∅)); [left|reflexivity].
Qed.

(** C3, an instance: only [onPaused] is registered for "started" when
    [onStarted] is added and removed. *)
Lemma add_then_remove_silences_witness :
  (∀ listeners,
     _subscriptions
       (removeEventListener started (App onStarted)
          (addEventListener started (App onStarted)
             (addEventListener started (App onPaused) (loaded VUndef))))
       !! started = Some listeners →
     listeners !! fn_src onStarted = None) ∧
  (∀ p x,
     x ∈ invocations (MEDIA_PLAYER_EVENTS started) p
           (removeEventListener started (App onStarted)
              (addEventListener started (App onStarted)
                 (addEventListener started (App onPaused) (loaded VUndef)))) →
     x.1 ≠ onStarted).
Proof.
  apply (add_then_remove_silences started onStarted
           (addEventListener started (App onPaused) (loaded VUndef))).
  intros sub Hsub _. apply list_elem_of_singleton in Hsub. subst sub.
  discriminate.
Defined.

(** C4, the code at the failing input: [onStarted] and
    [onStarted_again] are two function objects with the same source
    text, added in this order for "started"; a "started" event calls
    both.  Removing [onStarted] unbinds the listener of
    [onStarted_again] and deletes the bucket; a "started" event then
    calls [onStarted] and not [onStarted_again]. *)
Lemma remove_same_text_handler_removes_other :
  let s := addEventListener started (App onStarted_again)
             (addEventListener started (App onStarted) (loaded VUndef)) in
  let s' := removeEventListener started (App onStarted) s in
  onStarted ≠ onStarted_again ∧
  active (events s) =
    [{| sub_id := 0; sub_event := "started"; sub_handler := App onStarted |};
     {| sub_id := 1; sub_event := "started";
        sub_handler := App onStarted_again |}] ∧
  _subscriptions s !! started = Some {[ fn_src onStarted_again := 1%nat ]} ∧
  invocations "started" ∅ s = [(onStarted, ∅); (onStarted_again, ∅)] ∧
  _subscriptions s' = ∅ ∧
  active (events s') =
    [{| sub_id := 0; sub_event := "started"; sub_handler := App onStarted |}] ∧
  invocations "started" ∅ s' = [(onStarted, ∅)].
Proof. repeat split. discriminate. Qed.

(** The hypotheses of [removeEventListener_keeps_other] hold for two
    handlers written differently. *)
Lemma removeEventListener_keeps_other_example :
  ∀ p, ∃ p',
    (onPaused, p') ∈
      invocations (MEDIA_PLAYER_EVENTS started) p
        (removeEventListener started (App onStarted)
           (addEventListener started (App onPaused)
              (addEventListener started (App onStarted) (loaded VUndef)))).
Proof.
  apply (removeEventListener_keeps_other started onStarted onPaused
           (addEventListener started (App onPaused)
              (addEventListener started (App onStarted) (loaded VUndef)))).
  - split.
    + simpl. apply NoDup_cons.
      split; [intros ?%list_elem_of_singleton; discriminate|].
      apply NoDup_singleton.
    + intros sub [->|[->|[]%elem_of_nil]%elem_of_cons]%elem_of_cons;
        simpl; lia.
  - eexists _, 0%nat. split; [reflexivity|]. split; [reflexivity|left].
  - eexists _, 1%nat. split; [reflexivity|]. split; [reflexivity|].
    right; left.
  - discriminate.
Qed.

(** C6, an instance: the module as loaded. *)
Lemma no_uri_no_command_witness :
  native (play (loaded VUndef)) = [] ∧
  native (pause (loaded VUndef)) = [] ∧
  native (stop (loaded VUndef)) = [] ∧
  native (seekTo unparsed (int 5) (loaded VUndef)) = [] ∧
  truthy (position (loaded VUndef)) = false.
Proof.
  apply (proj1 (no_uri_no_command no_assets unparsed) (loaded VUndef) (int 5)).
  reflexivity.
Defined.

(** C7, an instance: [destroy] after [init] and one
    [addEventListener]. *)
Lemma destroy_tears_down_witness :
  native (destroy (addEventListener started (App onStarted)
                     (prepared_with VNull)))
    = [NInit (VStr sample_url); NStop; NDeInit] ∧
  ∀ sub,
    sub ∈ active (events (destroy
            (addEventListener started (App onStarted) (prepared_with VNull)))) →
    sub_id sub ≠ 1%nat.
Proof.
  destruct (destroy_tears_down
              (addEventListener started (App onStarted) (prepared_with VNull)))
    as (Hnative & _ & Hunbound & _).
  split; [exact Hnative|].
  apply (Hunbound started {[ fn_src onStarted := 1%nat ]}
           (fn_src onStarted) 1%nat); reflexivity.
Defined.

(** C8, the claim as written fails: the duration is known to be 0 and
    [seekTo(50)] forwards 50, which is not in [0, 0]. *)
Lemma seekTo_duration_zero_not_clamped :
  let s := prepared_with (VNum (int 0)) in
  truthy (uri s) = true ∧
  duration s = VNum (int 0) ∧
  native (seekTo unparsed (int 50) s) = native s ++ [NSeekTo (VNum (int 50))] ∧
  num_le (int 50) (int 0) = false.
Proof. repeat split. Qed.

(** C8, the instances of the claim: with duration 100, [seekTo(-5)]
    forwards 0, [seekTo(150)] forwards 100 and [seekTo(50)] forwards
    50. *)
Lemma seekTo_clamps_witness :
  let s := prepared_with (VNum (int 100)) in
  native (seekTo unparsed (int (-5)) s) = native s ++ [NSeekTo (VNum (int 0))] ∧
  native (seekTo unparsed (int 150) s) = native s ++ [NSeekTo (VNum (int 100))] ∧
  native (seekTo unparsed (int 50) s) = native s ++ [NSeekTo (VNum (int 50))].
Proof.
  intros s. split; [|split].
  - destruct (seekTo_clamps unparsed (int 100) (int (-5)) s
                eq_refl eq_refl eq_refl) as (r & Hn & _ & _ & H0 & _).
    rewrite (H0 eq_refl) in Hn. exact Hn.
  - destruct (seekTo_clamps unparsed (int 100) (int 150) s
                eq_refl eq_refl eq_refl) as (r & Hn & _ & _ & _ & _ & _ & Hd).
    rewrite (Hd eq_refl) in Hn. exact Hn.
  - destruct (seekTo_clamps unparsed (int 100) (int 50) s
                eq_refl eq_refl eq_refl) as (r & Hn & _ & _ & _ & _ & Ht & _).
    rewrite (Ht eq_refl eq_refl) in Hn. exact Hn.
Defined.

(** C9, instances: two [init] calls; [init], [destroy], [init]; and an
    [init] after the [destroy] of a prepared player. *)
Lemma prepared_listener_bound_once_witness :
  prepared_registrations
    (run no_assets unparsed
       [Init (VStr sample_url); Init (VStr sample_url)] (loaded VUndef))
    = 1%nat ∧
  prepared_registrations
    (run no_assets unparsed
       [Init (VStr sample_url); Destroy; Init (VStr sample_url)]
       (loaded VUndef))
    = 1%nat ∧
  prepared_registrations
    (run no_assets unparsed [Init (VStr sample_url)]
       (destroy (prepared_with VNull)))
    = prepared_registrations (prepared_with VNull).
Proof.
  destruct (prepared_listener_bound_once no_assets unparsed)
    as (_ & Hvalid & Htwo & _ & Hafter).
  split; [|split].
  - apply (Htwo VUndef (VStr sample_url) (VStr sample_url)
             (VStr sample_url) (VStr sample_url)); reflexivity.
  - apply (Hvalid VUndef [] [Destroy; Init (VStr sample_url)]
             (VStr sample_url) (VStr sample_url)); reflexivity.
  - apply (Hafter (prepared_with VNull) [Init (VStr sample_url)]).
    reflexivity.
Defined.

(** C10, an instance: a prepared player with duration 100. *)
Lemma destroy_keeps_source_witness :
  let s := prepared_with (VNum (int 100)) in
  native (play (destroy s)) = native s ++ [NStop; NDeInit; NPlay] ∧
  native (pause (destroy s)) = native s ++ [NStop; NDeInit; NPause] ∧
  native (stop (destroy s)) = native s ++ [NStop; NDeInit; NStop] ∧
  ∃ v, native (seekTo unparsed (int 50) s) = native s ++ [NSeekTo v] ∧
       native (seekTo unparsed (int 50) (destroy s)) =
         native s ++ [NStop; NDeInit; NSeekTo v].
Proof.
  intros s.
  apply (proj2 (proj2 (destroy_keeps_source unparsed s (int 50)))).
  reflexivity.
Defined.

(** ** Instances of the further properties *)

(** X2, an instance: the codes 17 and 18. *)
Lemma decode_codes_injective_witness :
  (∃ name, array_get EVENT_RESULTS 17 = VStr name ∧ name ∈ EVENT_RESULTS) ∧
  (array_get EVENT_RESULTS 17 = array_get EVENT_RESULTS 18 → 17 = 18).
Proof. apply (decode_codes_injective 17 18); lia. Defined.

(** X5, an instance: a handler added for "started" and an event
    "paused". *)
Lemma addEventListener_other_event_witness :
  invocations (MEDIA_PLAYER_EVENTS paused) ∅
    (addEventListener started (App onStarted)
       (addEventListener paused (App onPaused) (loaded VUndef)))
  = invocations (MEDIA_PLAYER_EVENTS paused) ∅
      (addEventListener paused (App onPaused) (loaded VUndef)).
Proof. apply addEventListener_other_event. discriminate. Defined.

(** X8, an instance: [init("")] on a prepared player. *)
Lemma init_without_uri_witness :
  ∃ s', init no_assets (VStr "") (prepared_with (VNum (int 100))) = Some s' ∧
        native s' = native (prepared_with (VNum (int 100))) ∧
        duration s' = VNull ∧
        native (play s') = native (prepared_with (VNum (int 100))).
Proof.
  destruct (init_without_uri no_assets unparsed (VStr "") (VStr "")
              (prepared_with (VNum (int 100))) eq_refl eq_refl)
    as (s' & Hi & Hn & _ & _ & Hd & _ & _ & _ & Hp & _).
  exists s'. by repeat split.
Defined.

(** X9, an instance: the first [init] of a session. *)
Lemma init_with_uri_witness :
  ∃ s', init no_assets (VStr sample_url) (loaded VUndef) = Some s' ∧
        native s' = [NInit (VStr sample_url)] ∧
        duration
          (emit (MEDIA_PLAYER_EVENTS prepared)
                {[ "duration" := VNum (int 100) ]} s')
          = VNum (int 100).
Proof.
  destruct (init_with_uri no_assets (VStr sample_url) (VStr sample_url)
              (loaded VUndef) eq_refl eq_refl)
    as (s' & Hi & Hn & _ & _ & _ & _ & _ & Hcap).
  exists s'. split; [done|]. split; [done|].
  by rewrite (Hcap eq_refl).
Defined.

(** X11, an instance: a prepared player is destroyed and initialised
    again; the next "prepared" event leaves the duration unset. *)
Lemma no_capture_after_destroy_witness :
  ∃ s', init no_assets (VStr sample_url)
          (destroy (prepared_with (VNum (int 100)))) = Some s' ∧
        duration (emit "prepared" {[ "duration" := VNum (int 100) ]} s')
          = VNull.
Proof.
  destruct (no_capture_after_destroy no_assets (VStr sample_url)
              (VStr sample_url) (prepared_with (VNum (int 100))))
    as (s' & Hi & Hd); [reflexivity| |reflexivity|reflexivity|].
  - intros sub Hsub%list_elem_of_singleton _. subst sub.
    exists prepared, {[ DurationCapture_src := 0%nat ]}, DurationCapture_src.
    by split.
  - exists s'. split; [done|]. apply Hd.
Defined.

(** X12, an instance: [seekTo(150)] before any "prepared" event. *)
Lemma seekTo_without_duration_witness :
  ∃ r, native (seekTo unparsed (int 150) (prepared_with VNull))
         = native (prepared_with VNull) ++ [NSeekTo (VNum r)] ∧
       r = int 150.
Proof.
  destruct (seekTo_without_duration unparsed (int 150) (prepared_with VNull)
              eq_refl eq_refl) as (r & Hn & _ & Hr).
  exists r. split; [done|]. by apply Hr.
Defined.

(** X13, an instance: the bucket left by two additions and one
    removal. *)
Lemma reachable_no_empty_bucket_witness :
  (0 < size ({[ fn_src onPaused := 1%nat ]} : gmap string nat))%nat.
Proof.
  apply (reachable_no_empty_bucket no_assets unparsed VUndef
           [AddEventListener started onStarted;
            AddEventListener started onPaused;
            RemoveEventListener started onStarted] started).
  reflexivity.
Defined.


(** X16, an instance: the script installed under the [node_modules]
    of an application. *)
Lemma getPath_found_witness :
  ∃ root' rest',
    getPath "/home/me/app/node_modules/react-native-tizen-dotnet/build/src"
            "react-native-tizen-dotnet" = root' ∧
    "/home/me/app/node_modules/react-native-tizen-dotnet/build/src"
      = root' +:+ build_marker "react-native-tizen-dotnet" +:+ rest' ∧
    (String.length root' ≤ String.length "/home/me/app")%nat.
Proof.
  destruct (getPath_found
              "/home/me/app/node_modules/react-native-tizen-dotnet/build/src"
              "react-native-tizen-dotnet" "/home/me/app" "/src" eq_refl)
    as (root' & rest' & H1 & H2 & H3 & _).
  by exists root', rest'.
Defined.

(** X17, an instance: the script run from a checkout of its own. *)
Lemma getPath_not_found_witness :
  getPath "/home/me/tools/build/src" "react-native-tizen-dotnet"
  = "/home/me/tools/build/sr".
Proof.
  apply (getPath_not_found "/home/me/tools/build/src"
           "react-native-tizen-dotnet").
  intros Hocc.
  destruct (indexOf_from_spec (build_marker "react-native-tizen-dotnet")
              "/home/me/tools/build/src" 0) as [[_ Hno]|(a & b & Hi & _)].
  - by apply Hno.
  - assert (Hc : indexOf_from (build_marker "react-native-tizen-dotnet")
                   "/home/me/tools/build/src" 0 = -1) by reflexivity.
    lia.
Defined.

(** X22, an instance: both files present and the command "dev". *)
Lemma packager_rewrites_then_runs_witness :
  (packager "/app/node_modules/rntd/build" "rntd" (VStr "dev")
     {[ "/app/node_modules/react-native/packager/defaults.js"
          := "['windows', 'web'], ['react-native', 'react-native-windows']";
        "/app/node_modules/react-native/packager/src/node-haste/lib/getPlatformExtension.js"
          := "new Set(['windows', 'web'])" ]}).1
  = {[ "/app/node_modules/react-native/packager/defaults.js"
         := "['tizen', 'web'], ['react-native', 'react-native-sante']";
       "/app/node_modules/react-native/packager/src/node-haste/lib/getPlatformExtension.js"
         := "new Set(['windows', 'tizen'])" ]} ∧
  (packager "/app/node_modules/rntd/build" "rntd" (VStr "dev")
     {[ "/app/node_modules/react-native/packager/defaults.js"
          := "['windows', 'web'], ['react-native', 'react-native-windows']";
        "/app/node_modules/react-native/packager/src/node-haste/lib/getPlatformExtension.js"
          := "new Set(['windows', 'web'])" ]}).2
  = Some (bundle_command "/app" true).
Proof.
  destruct (packager_rewrites_then_runs
    "/app/node_modules/rntd/build" "rntd" (VStr "dev")
    {[ "/app/node_modules/react-native/packager/defaults.js"
         := "['windows', 'web'], ['react-native', 'react-native-windows']";
       "/app/node_modules/react-native/packager/src/node-haste/lib/getPlatformExtension.js"
         := "new Set(['windows', 'web'])" ]}
    "['windows', 'web'], ['react-native', 'react-native-windows']"
    "new Set(['windows', 'web'])"
    ltac:(by vm_compute) ltac:(by vm_compute)) as (Hfs & Hrun & _).
  split.
  - rewrite Hfs. by vm_compute.
  - by apply Hrun.
Defined.
